(** * Call-graph extraction and Mermaid serialization of [mermaidomatic.py]

    A shallow embedding of the program: the syntax tree of Python's [ast]
    module as far as the program inspects it, [ast.walk] as the breadth-first
    queue traversal it is, the three collections built by [analyze_ast], the
    text built by [generate_mermaid_syntax], and [main] as a function on an
    explicit world (files, log, clock). *)

From stdpp Require Import base strings list gmap.
From Stdlib Require Import Ascii String ZArith Lia.

Local Open Scope string_scope.
Local Open Scope list_scope.
Local Open Scope nat_scope.

(** ** Characters that cannot be written inside a literal *)

Definition nl : string := String "010"%char EmptyString.
Definition dquote : string := String "034"%char EmptyString.

(** ** Syntax trees *)

(** The value held by an [ast.Constant].  Floating point and complex values
    are kept as their source text: the program never computes with them. *)
Inductive constant : Type :=
| CNone
| CEllipsis
| CBool (b : bool)
| CInt (z : Z)
| CFloat (repr : string)
| CComplex (repr : string)
| CStr (s : string)
| CBytes (b : list ascii).

(** The node classes the program tests with [isinstance] or reads fields of,
    each with the child-bearing fields of its [_fields] in order; every other
    class of the [ast] module is an [Other] node carrying its class name and
    its child nodes in [_fields] order.  [kw_defaults] lists the defaults that
    are present ([iter_child_nodes] skips the [None] entries). *)
#[warnings="-register-all"]
Inductive node : Type :=
| Module (body type_ignores : list node)
| FunctionDef (name : string) (args : node) (body decorator_list : list node)
    (returns : option node) (type_params : list node)
| arguments (posonlyargs args : list node) (vararg : option node)
    (kwonlyargs kw_defaults : list node) (kwarg : option node)
    (defaults : list node)
| arg (arg_name : string) (annotation : option node)
| Return (value : option node)
| For (target iter : node) (body orelse : list node)
| While (test : node) (body orelse : list node)
| Expr (value : node)
| Call (func : node) (args keywords : list node)
| Name (id : string) (ctx : node)
| Constant (value : constant)
| Other (tyname : string) (children : list node).

Definition Load : node := Other "Load" [].
Definition Store : node := Other "Store" [].
Definition Pass : node := Other "Pass" [].

Definition opt_child (o : option node) : list node :=
  match o with Some n => [n] | None => [] end.

(** [ast.iter_child_nodes]: the direct children, field by field. *)
Definition iter_child_nodes (n : node) : list node :=
  match n with
  | Module body type_ignores => body ++ type_ignores
  | FunctionDef _ args body decorator_list returns type_params =>
      args :: body ++ decorator_list ++ opt_child returns ++ type_params
  | arguments posonlyargs args vararg kwonlyargs kw_defaults kwarg defaults =>
      posonlyargs ++ args ++ opt_child vararg ++ kwonlyargs ++ kw_defaults
        ++ opt_child kwarg ++ defaults
  | arg _ annotation => opt_child annotation
  | Return value => opt_child value
  | For target iter body orelse => target :: iter :: body ++ orelse
  | While test body orelse => test :: body ++ orelse
  | Expr value => [value]
  | Call func args keywords => func :: args ++ keywords
  | Name _ ctx => [ctx]
  | Constant _ => []
  | Other _ children => children
  end.

(** [type(n).__name__] *)
Definition type_name (n : node) : string :=
  match n with
  | Module _ _ => "Module"
  | FunctionDef _ _ _ _ _ _ => "FunctionDef"
  | arguments _ _ _ _ _ _ _ => "arguments"
  | arg _ _ => "arg"
  | Return _ => "Return"
  | For _ _ _ _ => "For"
  | While _ _ _ => "While"
  | Expr _ => "Expr"
  | Call _ _ _ => "Call"
  | Name _ _ => "Name"
  | Constant _ => "Constant"
  | Other tyname _ => tyname
  end.

(** Number of nodes of a tree: the fuel of the traversal. *)
Fixpoint size (n : node) : nat :=
  let sizes := fix sizes (l : list node) : nat :=
    match l with [] => 0 | x :: l' => size x + sizes l' end in
  let osize := fun o : option node =>
    match o with Some x => size x | None => 0 end in
  match n with
  | Module body type_ignores => S (sizes body + sizes type_ignores)
  | FunctionDef _ args body decorator_list returns type_params =>
      S (size args + (sizes body + (sizes decorator_list
           + (osize returns + sizes type_params))))
  | arguments posonlyargs args vararg kwonlyargs kw_defaults kwarg defaults =>
      S (sizes posonlyargs + (sizes args + (osize vararg + (sizes kwonlyargs
           + (sizes kw_defaults + (osize kwarg + sizes defaults))))))
  | arg _ annotation => S (osize annotation)
  | Return value => S (osize value)
  | For target iter body orelse =>
      S (size target + (size iter + (sizes body + sizes orelse)))
  | While test body orelse => S (size test + (sizes body + sizes orelse))
  | Expr value => S (size value)
  | Call func args keywords => S (size func + (sizes args + sizes keywords))
  | Name _ ctx => S (size ctx)
  | Constant _ => 1
  | Other _ children => S (sizes children)
  end.

Definition total_size (l : list node) : nat := sum_list_with size l.

(** [ast.walk]: pop the left end of the queue, push the children of the
    popped node on the right end, yield the popped node. *)
Fixpoint walk_queue (fuel : nat) (todo : list node) : list node :=
  match fuel with
  | 0 => []
  | S fuel' =>
      match todo with
      | [] => []
      | n :: rest => n :: walk_queue fuel' (rest ++ iter_child_nodes n)
      end
  end.

Definition walk (n : node) : list node := walk_queue (size n) [n].

(** The traversal as a relation, without fuel: [Walk todo out] when the queue
    [todo] is drained yielding [out]. *)
Inductive Walk : list node -> list node -> Prop :=
| Walk_done : Walk [] []
| Walk_step n rest out :
    Walk (rest ++ iter_child_nodes n) out -> Walk (n :: rest) (n :: out).

(** The subtree reached from [n] by a path of child indices. *)
Fixpoint node_at (n : node) (path : list nat) : option node :=
  match path with
  | [] => Some n
  | i :: path' =>
      match iter_child_nodes n !! i with
      | Some c => node_at c path'
      | None => None
      end
  end.

(** ** The Python runtime and libraries the program relies on *)

(** The exceptions met: the two the serializer can raise, those of the
    parser and of the file system that have a name here, and any other
    class by its name. *)
Inductive exn : Type :=
| KeyError (key : string)
| TypeError (item : nat) (found : string)
| SyntaxError
| ValueError
| RecursionError
| UnicodeDecodeError
| FileNotFoundError
| IsADirectoryError
| PermissionError
| OtherError (class_name : string).

(** What the operating system finds at a path: a file that can be opened
    and read as text, a directory, or something whose opening or reading
    raises (no permission, bytes that do not decode). *)
Inductive entry : Type :=
| File (contents : string)
| Dir
| Unreadable (e : exn).

(** What the program takes from outside its own text: the hash of a string,
    salted anew for every interpreter process, which decides the order in
    which a [set] of strings is iterated; [inspect.cleandoc], applied by
    [ast.get_docstring(node, clean=True)]; the parser [ast.parse], which
    returns a tree or raises; and what the operating system does with
    [open(path, 'w')] followed by the writes of a text: it may refuse or fail
    with an exception, and it leaves a table of what is then found at each
    path, in which other spellings of the same file have changed too. *)
Record Runtime : Type := {
  str_hash : string -> Z;
  cleandoc : string -> string;
  ast_parse : string -> exn + node;
  write_file :
    gmap string entry -> string -> string -> option exn * gmap string entry
}.

(** Raising and propagating: the error monad on [exn + A], with stdpp's
    [x ← m; k] notation. *)
#[global] Instance exn_ret : MRet (sum exn) := fun A a => inr a.
#[global] Instance exn_bind : MBind (sum exn) := fun A B k m =>
  match m with inl e => inl e | inr a => k a end.

(** [sep.join(l)] on strings *)
Fixpoint join (sep : string) (l : list string) : string :=
  match l with
  | [] => EmptyString
  | [x] => x
  | x :: l' => x +:+ sep +:+ join sep l'
  end.

(** A [set] of strings, kept as the list of its distinct members;
    [set_iter] is the order of iteration.  CPython keeps the members in a
    hash table, each at a slot computed from its hash, and iterates the slots
    in order: the order is a function of the hashes and of nothing the
    program controls.  It is taken here as increasing hash, which is the slot
    order whenever the hashes are distinct and smaller than the table. *)
Definition set_add (x : string) (s : list string) : list string :=
  if bool_decide (x ∈ s) then s else s ++ [x].

Fixpoint insert_by_hash (h : string -> Z) (x : string) (l : list string)
  : list string :=
  match l with
  | [] => [x]
  | y :: l' =>
      if (h x <? h y)%Z then x :: y :: l' else y :: insert_by_hash h x l'
  end.

Definition set_iter (h : string -> Z) (s : list string) : list string :=
  fold_left (fun acc x => insert_by_hash h x acc) s [].

(** ** [analyze_ast] *)

(** The dictionary stored in [function_details] under a function name. *)
Record details : Type := {
  params : list string;
  returns : string;
  docstring : option string
}.

(** One entry of a [function_calls] list: [(callee, in_loop, params_passed)].
    A member of [params_passed] is whatever Python value the comprehension
    produced: a string, or the value of a literal. *)
Definition call_record : Type := string * bool * list constant.

(** The three collections of [analyze_ast].  [function_calls] is iterated by
    the serializer in insertion order of its keys, so it is an association
    list; [function_details] is only looked up. *)
Record state : Type := {
  analysis : list string;
  function_calls : list (string * list call_record);
  function_details : gmap string details
}.

Definition initial : state :=
  {| analysis := []; function_calls := []; function_details := ∅ |}.

(** [function_calls[key].append(e)] on a [defaultdict(list)] *)
Fixpoint append_call (fc : list (string * list call_record)) (key : string)
    (e : call_record) : list (string * list call_record) :=
  match fc with
  | [] => [(key, [e])]
  | (k, es) :: fc' =>
      if bool_decide (k = key) then (k, es ++ [e]) :: fc'
      else (k, es) :: append_call fc' key e
  end.

(** [[arg.arg for arg in node.args.args]].  In a tree built by the parser the
    [args] field of a function definition is an [arguments] node and the
    members of its [args] are [arg] nodes; nothing else is listed. *)
Definition arg_names (a : node) : list string :=
  match a with
  | arguments _ args _ _ _ _ _ =>
      flat_map (fun x => match x with arg s _ => [s] | _ => [] end) args
  | _ => []
  end.

(** The set built by the first inner loop: the class names of the values of
    the [Return] nodes that have one. *)
Definition return_types (sub_nodes : list node) : list string :=
  fold_left (fun s sub_node =>
               match sub_node with
               | Return (Some v) => set_add (type_name v) s
               | _ => s
               end) sub_nodes [].

(** [', '.join(return_types) if return_types else 'None'] *)
Definition returns_text (rt : Runtime) (s : list string) : string :=
  match s with
  | [] => "None"
  | _ => join ", " (set_iter (str_hash rt) s)
  end.

(** [ast.get_docstring(node, clean=True)] on the body of a definition *)
Definition get_docstring (rt : Runtime) (body : list node) : option string :=
  match body with
  | Expr (Constant (CStr text)) :: _ => Some (cleandoc rt text)
  | _ => None
  end.

Definition is_loop (n : node) : bool :=
  match n with
  | For _ _ _ _ | While _ _ _ => true
  | _ => false
  end.

(** [arg.id if isinstance(arg, ast.Name) else arg.value if
    isinstance(arg, ast.Constant) else type(arg).__name__] *)
Definition descriptor (a : node) : constant :=
  match a with
  | Name id _ => CStr id
  | Constant v => v
  | _ => CStr (type_name a)
  end.

(** The body of the second inner loop, on the flag and the call table. *)
Definition scan_node (known : list string) (caller : string)
    (acc : bool * list (string * list call_record)) (sub_node : node)
  : bool * list (string * list call_record) :=
  let in_loop := if is_loop sub_node then true else acc.1 in
  match sub_node with
  | Call (Name id _) args _ =>
      if bool_decide (id ∈ known)
      then (in_loop, append_call acc.2 caller (id, in_loop, descriptor <$> args))
      else (in_loop, acc.2)
  | _ => (in_loop, acc.2)
  end.

(** The dictionary built for a function definition (the outer loop builds
    it for nothing else). *)
Definition function_record (rt : Runtime) (n : node) : details :=
  match n with
  | FunctionDef _ args body _ _ _ =>
      {| params := arg_names args;
         returns := returns_text rt (return_types (walk n));
         docstring := get_docstring rt body |}
  | _ => {| params := []; returns := "None"; docstring := None |}
  end.

(** The body of the outer loop. *)
Definition visit (rt : Runtime) (st : state) (n : node) : state :=
  match n with
  | FunctionDef name _ _ _ _ _ =>
      let known := analysis st ++ [name] in
      {| analysis := known;
         function_calls :=
           (fold_left (scan_node known name) (walk n)
              (false, function_calls st)).2;
         function_details := <[name := function_record rt n]> (function_details st) |}
  | _ => st
  end.

Definition analyze_ast (rt : Runtime) (ast_tree : node) : state :=
  fold_left (visit rt) (walk ast_tree) initial.

(** ** [generate_mermaid_syntax] *)

(** [type(v).__name__] of the value of a literal *)
Definition py_type (v : constant) : string :=
  match v with
  | CNone => "NoneType"
  | CEllipsis => "ellipsis"
  | CBool _ => "bool"
  | CInt _ => "int"
  | CFloat _ => "float"
  | CComplex _ => "complex"
  | CStr _ => "str"
  | CBytes _ => "bytes"
  end.

(** [str.join] accepts strings only: on the first member that is not one it
    raises [TypeError: sequence item i: expected str instance, T found]. *)
Fixpoint str_items (i : nat) (l : list constant) : exn + list string :=
  match l with
  | [] => inr []
  | CStr s :: l' => rest ← str_items (S i) l'; inr (s :: rest)
  | v :: _ => inl (TypeError i (py_type v))
  end.

Definition join_values (sep : string) (l : list constant) : exn + string :=
  items ← str_items 0 l; inr (join sep items).

(** [x if x else 'None'] on a string *)
Definition or_None (x : string) : string :=
  match x with EmptyString => "None" | _ => x end.

(** The line added to [syntax] by the first loop; the backslashes are in the
    text, the line ends with a newline. *)
Definition node_decl (func : string) (d : details) : string :=
  let params := "\n\nPARAMS: " +:+ join ", " (params d) in
  let returns := "\n\nRETURNS: " +:+ or_None (returns d) in
  let docstring :=
    "\n\nDOC: " +:+ match docstring d with
                    | Some text => or_None text
                    | None => "None"
                    end in
  func +:+ "(" +:+ func +:+ params +:+ returns +:+ docstring +:+ ")" +:+ nl.

(** [function_details[func]] yields an empty dictionary for a missing name,
    and ['params'] is then a missing key. *)
Definition emit_node (function_details : gmap string details)
    (syntax : string) (func : string) : exn + string :=
  match function_details !! func with
  | Some d => inr (syntax +:+ node_decl func d)
  | None => inl (KeyError "params")
  end.

Definition edge_label (in_loop : bool) (joined : string) : string :=
  (if in_loop then "in_loop" else "calls") +:+ " params: " +:+ joined.

Definition emit_edge (func : string) (syntax : string) (c : call_record)
  : exn + string :=
  let '(call, in_loop, params_passed) := c in
  joined ← join_values ", " params_passed;
  inr (syntax +:+ func +:+ "-->|" +:+ dquote +:+ edge_label in_loop joined
         +:+ dquote +:+ "|" +:+ call +:+ ";" +:+ nl).

(** A [for] loop whose body may raise. *)
Fixpoint for_each {A S : Type} (body : S -> A -> exn + S) (l : list A) (s : S)
  : exn + S :=
  match l with
  | [] => inr s
  | x :: l' => s' ← body s x; for_each body l' s'
  end.

Definition fence : string := "```".

Definition generate_mermaid_syntax (analysis : list string)
    (function_calls : list (string * list call_record))
    (function_details : gmap string details) : exn + string :=
  let syntax := fence +:+ "mermaid" +:+ nl +:+ "graph TD;" +:+ nl in
  syntax ← for_each (emit_node function_details) analysis syntax;
  syntax ← for_each (fun syntax '(func, calls) =>
                       for_each (emit_edge func) calls syntax)
             function_calls syntax;
  inr (syntax +:+ fence).

(** Analysis followed by serialization, as [main] chains them. *)
Definition render (rt : Runtime) (ast_tree : node) : exn + string :=
  let st := analyze_ast rt ast_tree in
  generate_mermaid_syntax (analysis st) (function_calls st) (function_details st).

(** ** Files, log and [main] *)

Inductive level : Type := INFO | ERROR.

(** The world of one run: what is found at each path string, the records
    handed to [logging], and the clock reading
    [datetime.now(pytz.utc).strftime("%Y-%m-%d %H:%M:%S %Z")]. *)
Record world : Type := {
  files : gmap string entry;
  log : list (level * string);
  now : string
}.

Definition logging (l : level) (msg : string) (w : world) : world :=
  {| files := files w; log := log w ++ [(l, msg)]; now := now w |}.

(** [s.endswith(suffix)] *)
Definition endswith (s suffix : string) : bool :=
  bool_decide (String.length suffix ≤ String.length s)
  && bool_decide (substring (String.length s - String.length suffix)
                    (String.length suffix) s = suffix).

(** The result of [validate_file_path]: [True], or a message. *)
Inductive validation : Type :=
| VTrue
| VStr (message : string).

Definition validate_file_path (w : world) (file_path : string) : validation :=
  if bool_decide (files w !! file_path = None) then VStr "File does not exist."
  else if negb (endswith file_path ".py") then VStr "Not a Python file."
  else VTrue.

(** [open(file_path, 'r')], [f.read()] and [ast.parse]: whatever any of
    them raises is raised. *)
Definition parse_python_file (rt : Runtime) (w : world) (file_path : string)
  : exn + node :=
  match files w !! file_path with
  | None => inl FileNotFoundError
  | Some Dir => inl IsADirectoryError
  | Some (Unreadable e) => inl e
  | Some (File text) => ast_parse rt text
  end.

(** [os.path.basename]: what follows the last slash. *)
Fixpoint basename_from (acc p : string) : string :=
  match p with
  | EmptyString => acc
  | String c p' =>
      if bool_decide (c = "/"%char) then basename_from EmptyString p'
      else basename_from (acc +:+ String c EmptyString) p'
  end.

Definition basename (p : string) : string := basename_from EmptyString p.

(** [open(output_path, 'w')] and the two writes, handed to the operating
    system as one text: the exception it raises, if any, and the files it
    leaves. *)
Definition write_to_markdown (rt : Runtime) (w : world)
    (syntax output_path file_path : string) : option exn * world :=
  let text :=
    "# Generated Mermaid.js Diagram" +:+ nl +:+ nl +:+ "**File Name:** "
      +:+ basename file_path +:+ nl
      +:+ "**Date and Time of Diagram Generation:** " +:+ now w
      +:+ nl +:+ nl +:+ syntax in
  let written := write_file rt (files w) output_path text in
  (written.1, {| files := written.2; log := log w; now := now w |}).

(** How a call of [main] ends. *)
Inductive outcome : Type :=
| Returned
| Raised (e : exn).

Definition main (rt : Runtime) (w : world) (file_path output_path : string)
  : outcome * world :=
  match validate_file_path w file_path with
  | VStr validation_result =>
      (Returned, logging ERROR ("Validation failed: " +:+ validation_result) w)
  | VTrue =>
      let w := logging INFO "Starting AST analysis..." w in
      match parse_python_file rt w file_path with
      | inl e => (Raised e, w)
      | inr ast_tree =>
          let st := analyze_ast rt ast_tree in
          let w := logging INFO "Generating Mermaid.js syntax..." w in
          match generate_mermaid_syntax (analysis st) (function_calls st)
                  (function_details st) with
          | inl e => (Raised e, w)
          | inr mermaid_syntax =>
              let w := logging INFO "Writing to Markdown file..." w in
              match write_to_markdown rt w mermaid_syntax output_path
                      file_path with
              | (Some e, w) => (Raised e, w)
              | (None, w) =>
                  (Returned, logging INFO "Process completed successfully." w)
              end
          end
      end
  end.

(** ** Vocabulary of the statements *)

(** The name a node defines, when it is a function definition. *)
Definition def_name (n : node) : option string :=
  match n with
  | FunctionDef name _ _ _ _ _ => Some name
  | _ => None
  end.

(** The names of the function definitions among the nodes of a list. *)
Definition def_names (l : list node) : list string := omap def_name l.

(** Whether some [Return] among the nodes carries a value. *)
Definition has_value_return (l : list node) : bool :=
  existsb (fun n => match n with Return (Some _) => true | _ => false end) l.

(** Every recorded call, with its caller, in the order the serializer
    emits them. *)
Definition all_edges (fc : list (string * list call_record))
  : list (string * call_record) :=
  flat_map (fun kv => pair kv.1 <$> kv.2) fc.

Definition callee (e : string * call_record) : string := e.2.1.1.

(** The recorded calls whose target is [target]. *)
Definition edges_to (target : string) (fc : list (string * list call_record))
  : list (string * call_record) :=
  filter (fun e => callee e = target) (all_edges fc).

(** Whether the node at [path] below [n] lies under a loop node of [n]:
    some node strictly above it on the path, [n] included, is a [For] or a
    [While]. *)
Fixpoint enclosed_in_loop (n : node) (path : list nat) : bool :=
  match path with
  | [] => false
  | i :: path' =>
      match iter_child_nodes n !! i with
      | Some c => is_loop n || enclosed_in_loop c path'
      | None => false
      end
  end.

(** The text the first loop of the serializer adds for a list of names. *)
Fixpoint node_section (fd : gmap string details) (names : list string)
  : string :=
  match names with
  | [] => EmptyString
  | f :: names' =>
      match fd !! f with
      | Some d => node_decl f d +:+ node_section fd names'
      | None => node_section fd names'
      end
  end.

Definition is_str (v : constant) : bool :=
  match v with CStr _ => true | _ => false end.

(** Whether every argument descriptor of every recorded call is a string. *)
Definition printable (fc : list (string * list call_record)) : bool :=
  forallb (fun kv => forallb (fun c : call_record => forallb is_str c.2) kv.2)
    fc.

Definition header : string :=
  fence +:+ "mermaid" +:+ nl +:+ "graph TD;" +:+ nl.

(** ** Sample programs *)

Definition plain_args (names : list string) : node :=
  arguments [] ((fun s => arg s None) <$> names) None [] [] None [].

Definition def (name : string) (names : list string) (body : list node)
  : node :=
  FunctionDef name (plain_args names) body [] None [].

Definition var (id : string) : node := Name id Load.

Definition call (f : string) (args : list node) : node :=
  Call (var f) args [].

Definition for_range (i n : string) (body : list node) : node :=
  For (Name i Store) (call "range" [var n]) body [].

(** Two runtimes that differ in the string hash only: two interpreter
    processes with different hash seeds. *)
Definition hash_a (s : string) : Z :=
  if bool_decide (s = "Name") then 1
  else if bool_decide (s = "Constant") then 2 else 0.

Definition hash_b (s : string) : Z :=
  if bool_decide (s = "Name") then 2
  else if bool_decide (s = "Constant") then 1 else 0.

(** A file system in which every path string names a file of its own and
    only a directory at the path refuses a write. *)
Definition flat_write (fs : gmap string entry) (path text : string)
  : option exn * gmap string entry :=
  match fs !! path with
  | Some Dir => (Some IsADirectoryError, fs)
  | _ => (None, <[path := File text]> fs)
  end.

Definition runtime_a : Runtime :=
  {| str_hash := hash_a; cleandoc := fun s => s;
     ast_parse := fun _ => inl SyntaxError; write_file := flat_write |}.

Definition runtime_b : Runtime :=
  {| str_hash := hash_b; cleandoc := fun s => s;
     ast_parse := fun _ => inl SyntaxError; write_file := flat_write |}.

(** [def helper(x): return x] and
    [def main(n): for i in range(n): helper(n)] *)
Definition call_in_loop : node :=
  Module
    [ def "helper" ["x"] [Return (Some (var "x"))];
      def "main" ["n"] [for_range "i" "n" [Expr (call "helper" [var "n"])]] ]
    [].

(** [def helper(x): return x] and
    [def main(n): for i in range(n): pass] followed, outside the loop, by
    [helper(n)] *)
Definition call_after_loop : node :=
  Module
    [ def "helper" ["x"] [Return (Some (var "x"))];
      def "main" ["n"] [for_range "i" "n" [Pass]; Expr (call "helper" [var "n"])] ]
    [].

(** [def f(x): if x: return x] followed by [return 1] *)
Definition two_return_kinds : node :=
  Module
    [ def "f" ["x"]
        [ Other "If" [var "x"; Return (Some (var "x"))];
          Return (Some (Constant (CInt 1))) ] ]
    [].

(** [def f(x): return x] and [def g(): f(1)] *)
Definition literal_argument : node :=
  Module
    [ def "f" ["x"] [Return (Some (var "x"))];
      def "g" [] [Expr (call "f" [Constant (CInt 1)])] ]
    [].

(** [def f(): return 1] and then [def f(x): pass] *)
Definition defined_twice : node :=
  Module
    [ def "f" [] [Return (Some (Constant (CInt 1)))];
      def "f" ["x"] [Pass] ]
    [].

(** [def outer(): def inner(): inner()] followed by [print(1)] *)
Definition nested_recursive : node :=
  Module
    [ def "outer" []
        [ def "inner" [] [Expr (call "inner" [])];
          Expr (call "print" [Constant (CStr "x")]) ] ]
    [].

(** [def a(): b()] and then [def b(): len(1)] *)
Definition forward_reference : node :=
  Module
    [ def "a" [] [Expr (call "b" [])];
      def "b" [] [Expr (call "len" [Constant (CInt 1)])] ]
    [].

(** A world holding one text file and one directory. *)
Definition sample_world : world :=
  {| files := <["notes.txt" := File "hello"]> (<["pkg.py" := Dir]> ∅);
     log := [];
     now := "2024-01-01 00:00:00 UTC" |}.

(** ** Further vocabulary and samples *)

(** Whether a scanned node is a call, by plain name, of a name on the
    list. *)
Definition known_call (known : list string) (n : node) : bool :=
  match n with
  | Call (Name id _) _ _ => bool_decide (id ∈ known)
  | _ => false
  end.

(** The flag carried by a recorded call. *)
Definition flag_of (e : string * call_record) : bool := e.2.1.2.

Definition caller_of (e : string * call_record) : string := e.1.

(** Whether every function definition among the nodes returns values of at
    most one class. *)
Definition single_return_kind (l : list node) : bool :=
  forallb (fun d => match def_name d with
                    | Some _ =>
                        bool_decide (List.length (return_types (walk d)) ≤ 1)
                    | None => true
                    end) l.

Fixpoint has_slash (s : string) : bool :=
  match s with
  | EmptyString => false
  | String c s' => bool_decide (c = "/"%char) || has_slash s'
  end.

(** The document [write_to_markdown] writes, given the base name, the clock
    reading and the graph text. *)
Definition report (base time syntax : string) : string :=
  "# Generated Mermaid.js Diagram" +:+ nl +:+ nl +:+ "**File Name:** "
    +:+ base +:+ nl
    +:+ "**Date and Time of Diagram Generation:** " +:+ time
    +:+ nl +:+ nl +:+ syntax.

(** [def outer(): def inner(): outer()] *)
Definition nested_calls_outer : node :=
  Module [ def "outer" [] [def "inner" [] [Expr (call "outer" [])]] ] [].

(** The text of a descriptor that is a string. *)
Definition descriptor_text (v : constant) : string :=
  match v with CStr s => s | _ => EmptyString end.

(** The line of a recorded call whose descriptors are all strings. *)
Definition edge_line (x : string * call_record) : string :=
  x.1 +:+ "-->|" +:+ dquote
    +:+ edge_label x.2.1.2 (join ", " (descriptor_text <$> x.2.2))
    +:+ dquote +:+ "|" +:+ x.2.1.1 +:+ ";" +:+ nl.

Fixpoint concat_lines (l : list string) : string :=
  match l with
  | [] => EmptyString
  | x :: l' => x +:+ concat_lines l'
  end.

(** The progress records of a run, in order. *)
Definition progress : list (level * string) :=
  [ (INFO, "Starting AST analysis...");
    (INFO, "Generating Mermaid.js syntax...");
    (INFO, "Writing to Markdown file...");
    (INFO, "Process completed successfully.") ].

(** The node line of the output format,
    [name(name\n\nPARAMS: ...\n\nRETURNS: ...\n\nDOC: ...)], from its
    four texts. *)
Definition node_line (name params_text returns_text doc : string) : string :=
  name +:+ "(" +:+ name +:+ "\n\nPARAMS: " +:+ params_text
    +:+ "\n\nRETURNS: " +:+ returns_text +:+ "\n\nDOC: " +:+ doc
    +:+ ")" +:+ nl.

Definition doc_text (r : details) : string :=
  match docstring r with
  | Some text => or_None text
  | None => "None"
  end.

(** The last of the nodes that defines a function of the given name. *)
Fixpoint last_definition (name : string) (l : list node) : option node :=
  match l with
  | [] => None
  | n :: l' =>
      match last_definition name l' with
      | Some d => Some d
      | None => if bool_decide (def_name n = Some name) then Some n else None
      end
  end.

(** The line that declares a name after a run over the nodes [l]: the node
    line of the record of the last definition of the name. *)
Definition declaration (rt : Runtime) (l : list node) (name : string)
  : string :=
  match last_definition name l with
  | Some d =>
      node_line name (join ", " (params (function_record rt d)))
        (or_None (returns (function_record rt d)))
        (doc_text (function_record rt d))
  | None => EmptyString
  end.


(** The source text of [call_in_loop], and a parser that knows it. *)
Definition call_in_loop_text : string :=
  "def helper(x):" +:+ nl +:+ "    return x" +:+ nl
    +:+ "def main(n):" +:+ nl +:+ "    for i in range(n):" +:+ nl
    +:+ "        helper(n)" +:+ nl.

Definition literal_argument_text : string :=
  "def f(x):" +:+ nl +:+ "    return x" +:+ nl
    +:+ "def g():" +:+ nl +:+ "    f(1)" +:+ nl.

Definition sample_parse (text : string) : exn + node :=
  if bool_decide (text = call_in_loop_text) then inr call_in_loop
  else if bool_decide (text = literal_argument_text) then inr literal_argument
  else if bool_decide (text = EmptyString) then inr (Module [] [])
  else inl SyntaxError.

Definition runtime_p : Runtime :=
  {| str_hash := hash_a; cleandoc := fun s => s; ast_parse := sample_parse;
     write_file := flat_write |}.

(** A world with two programs, a text that is no program, a directory whose
    name ends in [.py], a program that may not be read, and an older
    report. *)
Definition project_world : world :=
  {| files :=
       <["src/example.py" := File call_in_loop_text]>
         (<["src/literal.py" := File literal_argument_text]>
            (<["broken.py" := File "def ("]>
               (<["pkg.py" := Dir]>
                  (<["locked.py" := Unreadable PermissionError]>
                     (<["output.md" := File "old report"]> ∅)))));
     log := [(INFO, "earlier run")];
     now := "2024-01-01 00:00:00 UTC" |}.

(** * Properties *)

(** ** The traversal *)

Section Traversal.

Lemma total_size_app l1 l2 :
  total_size (l1 ++ l2) = total_size l1 + total_size l2.
Proof. apply sum_list_with_app. Qed.

Lemma total_size_opt o :
  total_size (opt_child o) = match o with Some x => size x | None => 0 end.
Proof. destruct o; unfold total_size; simpl; lia. Qed.

(** A node counts for one more than its children together. *)
Lemma size_children n : size n = S (total_size (iter_child_nodes n)).
Proof.
  assert (Hs : ∀ l,
    (fix sizes (l : list node) : nat :=
       match l with [] => 0 | x :: l' => size x + sizes l' end) l
    = total_size l).
  { induction l as [|x l IH]; [done|]. rewrite IH. done. }
  destruct n; cbn [size iter_child_nodes]; rewrite ?Hs; f_equal;
    repeat (rewrite ?total_size_app, ?total_size_opt;
            change (total_size (?x :: ?l)) with (size x + total_size l));
    try lia; done.
Qed.

(** With fuel for every node in and below the queue, the queue is drained. *)
Lemma walk_queue_Walk fuel todo :
  total_size todo ≤ fuel → Walk todo (walk_queue fuel todo).
Proof.
  revert todo. induction fuel as [|fuel IH]; intros [|n rest] Hle; simpl.
  - constructor.
  - exfalso. change (size n + total_size rest ≤ 0) in Hle.
    rewrite size_children in Hle. lia.
  - constructor.
  - constructor. apply IH. rewrite total_size_app.
    change (size n + total_size rest ≤ S fuel) in Hle.
    rewrite size_children in Hle. lia.
Qed.

Lemma walk_Walk n : Walk [n] (walk n).
Proof.
  apply walk_queue_Walk. unfold total_size. simpl. lia.
Qed.

(** The traversal yields the node it starts from first. *)
Lemma walk_head n : ∃ out, walk n = n :: out.
Proof.
  unfold walk. rewrite size_children. simpl. eauto.
Qed.

(** Every node below a queued node is yielded. *)
Lemma Walk_complete todo out :
  Walk todo out →
  ∀ n path d, n ∈ todo → node_at n path = Some d → d ∈ out.
Proof.
  induction 1 as [|n rest out _ IH]; intros m path d Hm Hd.
  - by apply elem_of_nil in Hm.
  - destruct path as [|i path]; simpl in Hd.
    + injection Hd as <-. apply elem_of_cons in Hm as [->|Hm].
      * apply elem_of_cons; by left.
      * apply elem_of_cons; right.
        apply (IH m [] m); [apply elem_of_app; by left | done].
    + apply elem_of_cons; right.
      destruct (iter_child_nodes m !! i) as [c|] eqn:Hc; [|done].
      apply elem_of_cons in Hm as [->|Hm].
      * apply (IH c path d); [|done].
        apply elem_of_app; right. by eapply list_elem_of_lookup_2.
      * apply (IH m (i :: path) d); [apply elem_of_app; by left|].
        simpl. by rewrite Hc.
Qed.

Lemma walk_complete n path d : node_at n path = Some d → d ∈ walk n.
Proof.
  intros Hd. eapply (Walk_complete [n]); [apply walk_Walk| |done].
  apply elem_of_cons; by left.
Qed.

End Traversal.

(** ** The call table *)

Section CallTable.

Implicit Types (fc : list (string * list call_record)) (e : call_record).

Lemma all_edges_append_call fc key e x :
  x ∈ all_edges (append_call fc key e) ↔ x ∈ all_edges fc ∨ x = (key, e).
Proof.
  induction fc as [|[k es] fc IH]; simpl.
  - rewrite ?app_nil_r, list_elem_of_singleton, elem_of_nil. tauto.
  - case_bool_decide as Hk; simpl.
    + subst k. rewrite fmap_app, !elem_of_app. simpl.
      rewrite list_elem_of_singleton. tauto.
    + rewrite !elem_of_app, IH. tauto.
Qed.

(** Appending a call to some other target leaves the calls to [target] as
    they were, in number and in order. *)
Lemma edges_to_append_call target fc key e :
  e.1.1 ≠ target →
  edges_to target (append_call fc key e) = edges_to target fc.
Proof.
  intros Hne. unfold edges_to.
  induction fc as [|[k es] fc IH]; simpl.
  - rewrite filter_cons_False; [done|]. unfold callee. simpl. done.
  - case_bool_decide as Hk; simpl.
    + rewrite fmap_app, !filter_app. simpl.
      rewrite (filter_cons_False _ (k, e)); [|done].
      by rewrite filter_nil, app_nil_r.
    + by rewrite !filter_app, IH.
Qed.

Lemma scan_node_mono known caller acc sub_node x :
  x ∈ all_edges acc.2 → x ∈ all_edges (scan_node known caller acc sub_node).2.
Proof.
  intros Hx. unfold scan_node.
  destruct sub_node as [| | | | | | | |[]| | |]; simpl; try done.
  case_bool_decide; simpl; [|done].
  apply all_edges_append_call. by left.
Qed.

Lemma scan_fold_mono known caller l acc x :
  x ∈ all_edges acc.2 →
  x ∈ all_edges (fold_left (scan_node known caller) l acc).2.
Proof.
  revert acc. induction l as [|n l IH]; intros acc Hx; simpl; [done|].
  apply IH. by apply scan_node_mono.
Qed.

(** A call node whose target is known adds its record. *)
Lemma scan_node_known known caller acc id ctx args keywords :
  id ∈ known →
  ∃ in_loop,
    (caller, (id, in_loop, descriptor <$> args))
      ∈ all_edges (scan_node known caller acc (Call (Name id ctx) args keywords)).2.
Proof.
  intros Hid. unfold scan_node. simpl.
  rewrite bool_decide_true by done. simpl.
  eexists. apply all_edges_append_call. by right.
Qed.

Lemma scan_fold_known known caller l acc id ctx args keywords :
  Call (Name id ctx) args keywords ∈ l → id ∈ known →
  ∃ in_loop,
    (caller, (id, in_loop, descriptor <$> args))
      ∈ all_edges (fold_left (scan_node known caller) l acc).2.
Proof.
  intros Hc Hid. apply list_elem_of_split in Hc as (l1 & l2 & ->).
  rewrite fold_left_app. simpl.
  destruct (scan_node_known known caller
              (fold_left (scan_node known caller) l1 acc) id ctx args keywords
              Hid) as [b Hb].
  exists b. by apply scan_fold_mono.
Qed.

(** A node scanned leaves the calls to an unknown name untouched. *)
Lemma scan_node_unknown target known caller acc sub_node :
  target ∉ known →
  edges_to target (scan_node known caller acc sub_node).2
  = edges_to target acc.2.
Proof.
  intros Hn. unfold scan_node.
  destruct sub_node as [| | | | | | | |[]| | |]; simpl; try done.
  case_bool_decide as Hid; simpl; [|done].
  apply edges_to_append_call. simpl. by intros ->.
Qed.

Lemma scan_fold_unknown target known caller l acc :
  target ∉ known →
  edges_to target (fold_left (scan_node known caller) l acc).2
  = edges_to target acc.2.
Proof.
  intros Hn. revert acc. induction l as [|n l IH]; intros acc; simpl; [done|].
  rewrite IH. by apply scan_node_unknown.
Qed.

End CallTable.

(** ** The outer loop *)

Section Analysis.

Variable rt : Runtime.

Lemma visit_not_def st n : def_name n = None → visit rt st n = st.
Proof. by destruct n. Qed.

Lemma analysis_visit st n :
  analysis (visit rt st n) = analysis st ++ def_names [n].
Proof. destruct n; simpl; by rewrite ?app_nil_r. Qed.

(** The name list grows by the names of the definitions visited, in order. *)
Lemma analysis_fold l st :
  analysis (fold_left (visit rt) l st) = analysis st ++ def_names l.
Proof.
  revert st. induction l as [|n l IH]; intros st; simpl.
  - by rewrite app_nil_r.
  - rewrite IH, analysis_visit. unfold def_names. simpl.
    destruct (def_name n); simpl; by rewrite <- ?app_assoc, ?app_nil_r.
Qed.

Lemma details_visit_def st d name :
  def_name d = Some name →
  function_details (visit rt st d) !! name = Some (function_record rt d).
Proof.
  destruct d; simpl; try done. intros [= ->]. apply lookup_insert_eq.
Qed.

Lemma details_visit_other st n name :
  def_name n ≠ Some name →
  function_details (visit rt st n) !! name = function_details st !! name.
Proof.
  destruct n; simpl; try done. intros Hne.
  apply lookup_insert_ne. congruence.
Qed.

Lemma details_fold_other l st name :
  name ∉ def_names l →
  function_details (fold_left (visit rt) l st) !! name
  = function_details st !! name.
Proof.
  revert st. induction l as [|n l IH]; intros st Hn; simpl; [done|].
  unfold def_names in Hn. simpl in Hn.
  destruct (def_name n) as [m|] eqn:Hm.
  - apply not_elem_of_cons in Hn as [Hne Hn].
    rewrite IH by done. apply details_visit_other. congruence.
  - rewrite IH by done. apply details_visit_other. congruence.
Qed.

(** The table holds, under a name, the record of the definition of that name
    visited last. *)
Lemma details_last pre d post st name :
  def_name d = Some name → name ∉ def_names post →
  function_details (fold_left (visit rt) (pre ++ d :: post) st) !! name
  = Some (function_record rt d).
Proof.
  intros Hd Hpost. rewrite fold_left_app. simpl.
  rewrite details_fold_other by done. by apply details_visit_def.
Qed.

(** Every name of the list has a record in the table. *)
Lemma details_defined l st name :
  name ∈ def_names l →
  is_Some (function_details (fold_left (visit rt) l st) !! name).
Proof.
  revert st. induction l as [|n l IH] using rev_ind; intros st Hn.
  - by apply elem_of_nil in Hn.
  - unfold def_names in Hn. rewrite omap_app in Hn.
    rewrite fold_left_app. simpl.
    destruct (decide (def_name n = Some name)) as [Heq|Hne].
    + rewrite details_visit_def by done. eauto.
    + rewrite details_visit_other by done. apply IH.
      apply elem_of_app in Hn as [Hn|Hn]; [done|].
      simpl in Hn. destruct (def_name n); [|by apply elem_of_nil in Hn].
      apply list_elem_of_singleton in Hn. congruence.
Qed.

Lemma visit_mono st n x :
  x ∈ all_edges (function_calls st) →
  x ∈ all_edges (function_calls (visit rt st n)).
Proof.
  intros Hx. destruct n; simpl; try done.
  by apply (scan_fold_mono _ _ _ (false, function_calls st)).
Qed.

Lemma visit_fold_mono l st x :
  x ∈ all_edges (function_calls st) →
  x ∈ all_edges (function_calls (fold_left (visit rt) l st)).
Proof.
  revert st. induction l as [|n l IH]; intros st Hx; simpl; [done|].
  apply IH. by apply visit_mono.
Qed.

(** Visiting a node records no call to a name that is not in the name list
    the visit works with. *)
Lemma visit_unknown st n target :
  target ∉ analysis (visit rt st n) →
  edges_to target (function_calls (visit rt st n))
  = edges_to target (function_calls st).
Proof.
  destruct n; simpl; try done. intros Hn.
  by rewrite (scan_fold_unknown _ _ _ _ (false, function_calls st)).
Qed.

End Analysis.

(** ** Strings *)

Section Strings.

Lemma string_app_cons c (s t : string) :
  String c s +:+ t = String c (s +:+ t).
Proof. reflexivity. Qed.

Lemma string_app_nil_l (s : string) : EmptyString +:+ s = s.
Proof. reflexivity. Qed.

Lemma string_app_assoc (s1 s2 s3 : string) :
  (s1 +:+ s2) +:+ s3 = s1 +:+ (s2 +:+ s3).
Proof.
  induction s1 as [|c s1 IH]; [done|].
  by rewrite !string_app_cons, IH.
Qed.

Lemma string_app_nil_r (s : string) : s +:+ EmptyString = s.
Proof.
  induction s as [|c s IH]; [done|]. by rewrite string_app_cons, IH.
Qed.

Lemma string_length_app (s1 s2 : string) :
  String.length (s1 +:+ s2) = String.length s1 + String.length s2.
Proof.
  induction s1 as [|c s1 IH]; [done|].
  rewrite string_app_cons. simpl. by rewrite IH.
Qed.

Lemma substring_all (s : string) : substring 0 (String.length s) s = s.
Proof. induction s as [|c s IH]; simpl; [done | by rewrite IH]. Qed.

Lemma substring_skip (s1 s2 : string) m :
  substring (String.length s1) m (s1 +:+ s2) = substring 0 m s2.
Proof.
  induction s1 as [|c s1 IH]; [done|].
  rewrite string_app_cons. simpl. by rewrite IH.
Qed.

(** A string is its first [n] characters followed by the rest. *)
Lemma substring_split (s : string) n :
  n ≤ String.length s →
  s = substring 0 n s +:+ substring n (String.length s - n) s.
Proof.
  revert n. induction s as [|c s IH]; intros [|n] Hn; simpl in *; try lia.
  - done.
  - by rewrite substring_all.
  - rewrite string_app_cons. f_equal. apply IH. lia.
Qed.

(** [endswith] holds exactly of the strings that are something followed by
    the suffix. *)
Lemma endswith_spec (s suffix : string) :
  endswith s suffix = true ↔ ∃ stem, s = stem +:+ suffix.
Proof.
  unfold endswith. rewrite andb_true_iff, !bool_decide_eq_true. split.
  - intros [Hle Hsub].
    exists (substring 0 (String.length s - String.length suffix) s).
    pose proof (substring_split s (String.length s - String.length suffix))
      as Hs.
    replace (String.length s - (String.length s - String.length suffix))
      with (String.length suffix) in Hs by lia.
    rewrite Hsub in Hs. apply Hs. lia.
  - intros [stem ->]. rewrite string_length_app. split; [lia|].
    replace (String.length stem + String.length suffix - String.length suffix)
      with (String.length stem) by lia.
    rewrite substring_skip. apply substring_all.
Qed.

End Strings.

(** ** The serializer *)

Section Serializer.

Lemma bind_inr {A B : Type} (m : exn + A) (k : A → exn + B) b :
  m ≫= k = inr b ↔ ∃ a, m = inr a ∧ k a = inr b.
Proof.
  destruct m as [e|a]; simpl; split.
  - done.
  - by intros (a & [=] & _).
  - eauto.
  - by intros (a' & [= <-] & ?).
Qed.

(** A loop whose body only appends to the text only appends to the text. *)
Lemma for_each_extends {A : Type} (body : string → A → exn + string) l :
  (∀ s x s', body s x = inr s' → ∃ t, s' = s +:+ t) →
  ∀ s out, for_each body l s = inr out → ∃ t, out = s +:+ t.
Proof.
  intros Hbody. induction l as [|x l IH]; intros s out Hout; simpl in Hout.
  - injection Hout as <-. exists EmptyString. by rewrite string_app_nil_r.
  - apply bind_inr in Hout as (s' & Hs' & Hout).
    apply Hbody in Hs' as [t1 ->]. apply IH in Hout as [t2 ->].
    exists (t1 +:+ t2). by rewrite string_app_assoc.
Qed.

(** A loop whose body cannot raise on the members of the list does not
    raise. *)
Lemma for_each_total {A S : Type} (body : S → A → exn + S) (P : A → Prop) l :
  (∀ s x, P x → ∃ s', body s x = inr s') →
  Forall P l → ∀ s, ∃ out, for_each body l s = inr out.
Proof.
  intros Hbody. induction 1 as [|x l Hx _ IH]; intros s; simpl; [eauto|].
  destruct (Hbody s x Hx) as [s' ->]. simpl. apply IH.
Qed.

Lemma emit_nodes_inr fd names syntax out :
  for_each (emit_node fd) names syntax = inr out →
  out = syntax +:+ node_section fd names.
Proof.
  revert syntax. induction names as [|f names IH]; intros syntax Hout;
    simpl in Hout |- *.
  - injection Hout as <-. by rewrite string_app_nil_r.
  - apply bind_inr in Hout as (s' & Hs' & Hout). unfold emit_node in Hs'.
    destruct (fd !! f) as [d|]; [|done]. injection Hs' as <-.
    apply IH in Hout as ->. by rewrite string_app_assoc.
Qed.

Lemma emit_nodes_total fd names syntax :
  (∀ f, f ∈ names → is_Some (fd !! f)) →
  ∃ out, for_each (emit_node fd) names syntax = inr out.
Proof.
  intros Hfd.
  apply (for_each_total _ (fun f => is_Some (fd !! f))).
  - intros s f [d Hd]. unfold emit_node. rewrite Hd. eauto.
  - apply Forall_forall. intros f Hf. by apply Hfd.
Qed.

Lemma str_items_total i l :
  forallb is_str l = true → ∃ items, str_items i l = inr items.
Proof.
  revert i. induction l as [|v l IH]; intros i Hl; simpl; [eauto|].
  simpl in Hl. apply andb_true_iff in Hl as [Hv Hl].
  destruct v; try done. destruct (IH (S i) Hl) as [items ->]. simpl. eauto.
Qed.

Lemma emit_edge_total func syntax (c : call_record) :
  forallb is_str c.2 = true → ∃ out, emit_edge func syntax c = inr out.
Proof.
  destruct c as [[target in_loop] params_passed]. simpl. intros Hc.
  unfold emit_edge, join_values.
  destruct (str_items_total 0 params_passed Hc) as [items ->]. simpl. eauto.
Qed.

Lemma emit_edge_extends func syntax c out :
  emit_edge func syntax c = inr out → ∃ t, out = syntax +:+ t.
Proof.
  destruct c as [[target in_loop] params_passed]. unfold emit_edge.
  intros Hout. apply bind_inr in Hout as (joined & _ & [= <-]).
  eexists. reflexivity.
Qed.

(** The shape of the text: the header, one declaration per member of the
    name list, the edge lines, the closing fence. *)
Lemma generate_shape a fc fd text :
  generate_mermaid_syntax a fc fd = inr text →
  ∃ edge_lines, text = header +:+ node_section fd a +:+ edge_lines +:+ fence.
Proof.
  unfold generate_mermaid_syntax. intros Htext.
  apply bind_inr in Htext as (s1 & Hs1 & Htext).
  apply bind_inr in Htext as (s2 & Hs2 & [= <-]).
  apply emit_nodes_inr in Hs1 as ->.
  apply for_each_extends in Hs2 as [t ->].
  - exists t. unfold header. by rewrite !string_app_assoc.
  - intros s [func calls] s' Hs'.
    eapply for_each_extends; [|exact Hs']. apply emit_edge_extends.
Qed.

(** The serializer returns a text when every name has a record and every
    argument descriptor is a string. *)
Lemma generate_total a fc fd :
  (∀ f, f ∈ a → is_Some (fd !! f)) → printable fc = true →
  ∃ text, generate_mermaid_syntax a fc fd = inr text.
Proof.
  intros Hfd Hfc. unfold generate_mermaid_syntax.
  destruct (emit_nodes_total fd a
              (fence +:+ "mermaid" +:+ nl +:+ "graph TD;" +:+ nl) Hfd)
    as [s1 ->]. simpl.
  destruct (for_each_total
              (fun syntax '(func, calls) =>
                 for_each (emit_edge func) calls syntax)
              (fun kv => forallb (fun c : call_record => forallb is_str c.2)
                           kv.2 = true) fc) with (s := s1) as [s2 ->].
  - intros s [func calls] Hkv. simpl in Hkv.
    apply (for_each_total _ (fun c : call_record => forallb is_str c.2 = true)).
    + intros s' c Hc. by apply emit_edge_total.
    + apply Forall_forall. intros c Hc.
      rewrite forallb_forall in Hkv. apply Hkv. by apply list_elem_of_In.
  - apply Forall_forall. intros kv Hkv. unfold printable in Hfc.
    rewrite forallb_forall in Hfc. apply Hfc. by apply list_elem_of_In.
  - simpl. eauto.
Qed.

(** The declaration of a listed name is part of the node section. *)
Lemma node_section_decl fd names name r :
  name ∈ names → fd !! name = Some r →
  ∃ before after,
    node_section fd names = before +:+ node_decl name r +:+ after.
Proof.
  intros Hn Hr. induction names as [|f names IH].
  - by apply elem_of_nil in Hn.
  - simpl. destruct (decide (f = name)) as [->|Hne].
    + rewrite Hr. exists EmptyString, (node_section fd names). done.
    + apply elem_of_cons in Hn as [->|Hn]; [done|].
      destruct (IH Hn) as (before & after & ->).
      destruct (fd !! f) as [d|].
      * exists (node_decl f d +:+ before), after.
        by rewrite string_app_assoc.
      * eauto.
Qed.

End Serializer.

(** ** Whole runs of the analysis *)

Section Runs.

Variable rt : Runtime.

(** Without a [Return] that carries a value the set of return kinds stays
    empty. *)
Lemma return_types_none l :
  has_value_return l = false → return_types l = [].
Proof.
  unfold return_types. generalize (@nil string).
  induction l as [|n l IH]; intros s Hl; simpl in *; [done|].
  apply orb_false_iff in Hl as [Hn Hl].
  destruct n as [| | | |[v|]| | | | | | |]; try done; by apply IH.
Qed.

Lemma analysis_run t : analysis (analyze_ast rt t) = def_names (walk t).
Proof. unfold analyze_ast. by rewrite analysis_fold. Qed.

Lemma def_names_elem d name l :
  d ∈ l → def_name d = Some name → name ∈ def_names l.
Proof. intros Hd Hn. apply list_elem_of_omap. eauto. Qed.

(** The record found under a name after the run is the one of the last
    definition of that name in traversal order. *)
Lemma details_run t i d name :
  walk t !! i = Some d → def_name d = Some name →
  name ∉ def_names (drop (S i) (walk t)) →
  function_details (analyze_ast rt t) !! name = Some (function_record rt d).
Proof.
  intros Hi Hd Hpost. unfold analyze_ast.
  rewrite <- (take_drop_middle _ _ _ Hi). by apply details_last.
Qed.

(** No call to a name that never enters the name list is recorded. *)
Lemma edges_to_fold_unknown l st target :
  target ∉ analysis (fold_left (visit rt) l st) →
  edges_to target (function_calls (fold_left (visit rt) l st))
  = edges_to target (function_calls st).
Proof.
  revert st. induction l as [|n l IH]; intros st Hn; simpl in *; [done|].
  rewrite IH by done. apply visit_unknown.
  rewrite analysis_fold in Hn. intros Hin. apply Hn.
  apply elem_of_app. by left.
Qed.

(** A call found in the body of a visited definition, to a name in the list
    by then, is in the table at the end of the run. *)
Lemma call_recorded l1 d l2 st name id ctx cargs keywords :
  def_name d = Some name →
  Call (Name id ctx) cargs keywords ∈ walk d →
  id ∈ analysis (fold_left (visit rt) l1 st) ++ [name] →
  ∃ in_loop,
    (name, (id, in_loop, descriptor <$> cargs))
      ∈ all_edges (function_calls (fold_left (visit rt) (l1 ++ d :: l2) st)).
Proof.
  intros Hd Hc Hid. rewrite fold_left_app. simpl.
  set (before := fold_left (visit rt) l1 st) in *.
  destruct d; try done. injection Hd as ->.
  destruct (scan_fold_known _ name _ (false, function_calls before)
              id ctx cargs keywords Hc Hid) as [b Hb].
  exists b. by apply visit_fold_mono.
Qed.

End Runs.

(** ** What the loop flag does guarantee *)

Section LoopFlag.

(** In a traversal, a node is yielded before the nodes strictly below it. *)
Lemma Walk_parent_first todo out :
  Walk todo out →
  ∀ m q L i p c,
    m ∈ todo → node_at m q = Some L → node_at L (i :: p) = Some c →
    ∃ l1 l2, out = l1 ++ l2 ∧ L ∈ l1 ∧ c ∈ l2.
Proof.
  induction 1 as [|n rest out HW IH]; intros m q L i p c Hm HL Hc.
  - by apply elem_of_nil in Hm.
  - assert (Hrest : ∀ m', m' ∈ rest ++ iter_child_nodes n →
              ∀ q', node_at m' q' = Some L →
              ∃ l1 l2, n :: out = l1 ++ l2 ∧ L ∈ l1 ∧ c ∈ l2).
    { intros m' Hm' q' HL'.
      destruct (IH m' q' L i p c Hm' HL' Hc) as (l1 & l2 & -> & H1 & H2).
      exists (n :: l1), l2. split; [done|]. split; [|done].
      apply elem_of_cons. by right. }
    apply elem_of_cons in Hm as [->|Hm].
    + destruct q as [|j q]; simpl in HL.
      * injection HL as <-. exists [n], out. split; [done|].
        split; [apply list_elem_of_singleton; done|].
        simpl in Hc.
        destruct (iter_child_nodes n !! i) as [c1|] eqn:Hc1; [|done].
        eapply (Walk_complete _ _ HW c1 p c); [|done].
        apply elem_of_app. right. by eapply list_elem_of_lookup_2.
      * destruct (iter_child_nodes n !! j) as [m1|] eqn:Hm1; [|done].
        apply (Hrest m1) with (q' := q); [|done].
        apply elem_of_app. right. by eapply list_elem_of_lookup_2.
    + apply (Hrest m) with (q' := q); [|done]. apply elem_of_app. by left.
Qed.

(** A node under a loop has a loop node on the path to it. *)
Lemma enclosed_in_loop_split n path c :
  enclosed_in_loop n path = true → node_at n path = Some c →
  ∃ q L i p,
    node_at n q = Some L ∧ is_loop L = true ∧ node_at L (i :: p) = Some c.
Proof.
  revert n. induction path as [|j path IH]; intros n He Hc; simpl in *.
  - done.
  - destruct (iter_child_nodes n !! j) as [c1|] eqn:Hc1; [|done].
    apply orb_true_iff in He as [Hn|He].
    + exists [], n, j, path. simpl. by rewrite Hc1.
    + destruct (IH c1 He Hc) as (q & L & i & p & HL & Hloop & HLc).
      exists (j :: q), L, i, p. simpl. by rewrite Hc1.
Qed.

Lemma scan_node_flag known caller acc sub_node :
  acc.1 = true → (scan_node known caller acc sub_node).1 = true.
Proof.
  intros Hf. unfold scan_node. rewrite Hf.
  destruct sub_node as [| | | | | | | |[]| | |]; simpl; try done.
  by case_bool_decide.
Qed.

Lemma scan_node_loop known caller acc L :
  is_loop L = true → (scan_node known caller acc L).1 = true.
Proof. by destruct L. Qed.

Lemma scan_fold_flag known caller l acc :
  acc.1 = true → (fold_left (scan_node known caller) l acc).1 = true.
Proof.
  revert acc. induction l as [|n l IH]; intros acc Hf; simpl; [done|].
  apply IH. by apply scan_node_flag.
Qed.

(** Once a loop node has been scanned the flag is set for good. *)
Lemma scan_fold_after_loop known caller l acc L :
  L ∈ l → is_loop L = true →
  (fold_left (scan_node known caller) l acc).1 = true.
Proof.
  intros HL Hloop. apply list_elem_of_split in HL as (l1 & l2 & ->).
  rewrite fold_left_app. simpl. apply scan_fold_flag.
  by apply scan_node_loop.
Qed.

(** A call to a known name scanned with the flag set is recorded with it. *)
Lemma scan_fold_flagged known caller l acc id ctx args keywords :
  acc.1 = true → Call (Name id ctx) args keywords ∈ l → id ∈ known →
  (caller, (id, true, descriptor <$> args))
    ∈ all_edges (fold_left (scan_node known caller) l acc).2.
Proof.
  intros Hf Hc Hid. apply list_elem_of_split in Hc as (l1 & l2 & ->).
  rewrite fold_left_app. simpl. apply scan_fold_mono.
  pose proof (scan_fold_flag known caller l1 acc Hf) as Hf1.
  destruct (fold_left (scan_node known caller) l1 acc) as [flag fc].
  simpl in Hf1. subst flag. unfold scan_node. simpl.
  rewrite bool_decide_true by done. simpl.
  apply all_edges_append_call. by right.
Qed.

(** The half of the labelling that holds: a call site under a [For] or
    [While] node of the visited definition, calling a name on the list, is
    recorded with the flag set. *)
Lemma call_under_loop_flagged rt st d name site id ctx args keywords :
  def_name d = Some name →
  node_at d site = Some (Call (Name id ctx) args keywords) →
  enclosed_in_loop d site = true →
  id ∈ analysis (visit rt st d) →
  (name, (id, true, descriptor <$> args))
    ∈ all_edges (function_calls (visit rt st d)).
Proof.
  intros Hd Hsite Henc Hid.
  destruct (enclosed_in_loop_split d site _ Henc Hsite)
    as (q & L & i & p & HL & Hloop & Hc).
  destruct (Walk_parent_first [d] (walk d) (walk_Walk d) d q L i p
              (Call (Name id ctx) args keywords))
    as (l1 & l2 & Hw & H1 & H2); [apply list_elem_of_singleton; done|done..|].
  destruct d; try done. injection Hd as ->.
  cbn [visit function_calls analysis] in Hid |- *.
  rewrite Hw, fold_left_app.
  apply (scan_fold_flagged _ _ _ _ _ ctx _ keywords); [|done..].
  by eapply scan_fold_after_loop.
Qed.

End LoopFlag.

(** ** When the serializer raises *)

Section Raising.

Lemma str_items_inr i l items :
  str_items i l = inr items → forallb is_str l = true.
Proof.
  revert i items. induction l as [|v l IH]; intros i items Hl; [done|].
  destruct v; try done. simpl in Hl |- *.
  apply bind_inr in Hl as (rest & Hrest & _). by eapply IH.
Qed.

Lemma emit_edge_inr func syntax (c : call_record) out :
  emit_edge func syntax c = inr out → forallb is_str c.2 = true.
Proof.
  destruct c as [[target in_loop] params_passed]. unfold emit_edge.
  intros H. apply bind_inr in H as (joined & Hj & _).
  unfold join_values in Hj. apply bind_inr in Hj as (items & Hi & _).
  by eapply str_items_inr.
Qed.

Lemma for_each_inr {A S : Type} (body : S → A → exn + S) (P : A → bool) l :
  (∀ s x s', body s x = inr s' → P x = true) →
  ∀ s out, for_each body l s = inr out → forallb P l = true.
Proof.
  intros Hbody. induction l as [|x l IH]; intros s out Hout; [done|].
  simpl in Hout |- *. apply bind_inr in Hout as (s' & Hs' & Hout).
  apply andb_true_iff. split; [by eapply Hbody | by eapply IH].
Qed.

(** A text is returned only when every argument descriptor is a string. *)
Lemma generate_inr_printable a fc fd text :
  generate_mermaid_syntax a fc fd = inr text → printable fc = true.
Proof.
  unfold generate_mermaid_syntax. intros Htext.
  apply bind_inr in Htext as (s1 & _ & Htext).
  apply bind_inr in Htext as (s2 & Hs2 & _).
  unfold printable. eapply for_each_inr; [|exact Hs2].
  intros s [func calls] s' Hs'. simpl.
  eapply for_each_inr; [|exact Hs']. intros ? ? ?. apply emit_edge_inr.
Qed.

(** The serializer applied to the result of an analysis returns a text
    exactly when every argument descriptor recorded is a string: one literal
    argument that is not a string, anywhere, and it raises. *)
Lemma render_returns_iff_printable rt t :
  (∃ text, render rt t = inr text)
  ↔ printable (function_calls (analyze_ast rt t)) = true.
Proof.
  split.
  - intros [text Htext]. by eapply generate_inr_printable.
  - intros Hp. apply generate_total; [|done].
    intros f Hf. rewrite analysis_run in Hf. by apply details_defined.
Qed.

End Raising.

(** ** The text and the exceptions of the serializer *)

Section SerializerText.

Lemma concat_lines_app l1 l2 :
  concat_lines (l1 ++ l2) = concat_lines l1 +:+ concat_lines l2.
Proof.
  induction l1 as [|x l1 IH]; simpl; [done|].
  by rewrite IH, string_app_assoc.
Qed.

Lemma str_items_printable i l :
  forallb is_str l = true → str_items i l = inr (descriptor_text <$> l).
Proof.
  revert i. induction l as [|v l IH]; intros i Hl; [done|].
  simpl in Hl. apply andb_true_iff in Hl as [Hv Hl].
  destruct v; try done. simpl. by rewrite IH.
Qed.

Lemma emit_edge_printable func syntax (c : call_record) :
  forallb is_str c.2 = true →
  emit_edge func syntax c = inr (syntax +:+ edge_line (func, c)).
Proof.
  destruct c as [[target in_loop] params_passed]. simpl. intros Hc.
  unfold emit_edge, join_values. by rewrite str_items_printable.
Qed.

Lemma emit_edges_printable func calls syntax :
  forallb (fun c : call_record => forallb is_str c.2) calls = true →
  for_each (emit_edge func) calls syntax
  = inr (syntax +:+ concat_lines (edge_line <$> (pair func <$> calls))).
Proof.
  revert syntax. induction calls as [|c calls IH]; intros syntax Hc; simpl.
  - by rewrite string_app_nil_r.
  - simpl in Hc. apply andb_true_iff in Hc as [Hc Hcs].
    rewrite emit_edge_printable by done. simpl.
    rewrite IH by done. by rewrite string_app_assoc.
Qed.

Lemma emit_table_printable fc syntax :
  printable fc = true →
  for_each (fun syntax '(func, calls) =>
              for_each (emit_edge func) calls syntax) fc syntax
  = inr (syntax +:+ concat_lines (edge_line <$> all_edges fc)).
Proof.
  revert syntax. induction fc as [|[func calls] fc IH]; intros syntax Hp;
    simpl.
  - by rewrite string_app_nil_r.
  - simpl in Hp. apply andb_true_iff in Hp as [Hc Hp].
    rewrite emit_edges_printable by done. simpl.
    rewrite IH by done.
    by rewrite fmap_app, concat_lines_app, string_app_assoc.
Qed.

Lemma emit_nodes_all fd names syntax :
  (∀ f, f ∈ names → is_Some (fd !! f)) →
  for_each (emit_node fd) names syntax
  = inr (syntax +:+ node_section fd names).
Proof.
  intros Hfd. destruct (emit_nodes_total fd names syntax Hfd) as [out Hout].
  rewrite Hout. by apply emit_nodes_inr in Hout as ->.
Qed.

(** The first name without a record stops the first loop. *)
Lemma emit_nodes_missing fd names syntax f :
  f ∈ names → fd !! f = None →
  for_each (emit_node fd) names syntax = inl (KeyError "params").
Proof.
  intros Hf Hnone. revert syntax.
  induction names as [|g names IH]; intros syntax.
  - by apply elem_of_nil in Hf.
  - simpl. destruct (emit_node fd syntax g) as [e|s'] eqn:Hg.
    + unfold emit_node in Hg. destruct (fd !! g); [done|].
      by injection Hg as <-.
    + simpl. apply IH. apply elem_of_cons in Hf as [->|Hf]; [|done].
      unfold emit_node in Hg. by rewrite Hnone in Hg.
Qed.

Lemma str_items_raises i l e :
  str_items i l = inl e → ∃ j ty, e = TypeError j ty.
Proof.
  revert i. induction l as [|v l IH]; intros i Hl; [done|].
  destruct v; simpl in Hl; try (injection Hl as <-; eauto).
  destruct (str_items (S i) l) as [e'|rest] eqn:Hrest; simpl in Hl; [|done].
  injection Hl as <-. by eapply IH.
Qed.

Lemma for_each_raises {A S : Type} (body : S → A → exn + S)
    (P : exn → Prop) l :
  (∀ s x e, body s x = inl e → P e) →
  ∀ s e, for_each body l s = inl e → P e.
Proof.
  intros Hbody. induction l as [|x l IH]; intros s e He; [done|].
  simpl in He. destruct (body s x) as [e'|s'] eqn:Hx; simpl in He.
  - injection He as <-. by eapply Hbody.
  - by eapply IH.
Qed.

Lemma emit_table_raises fc syntax e :
  for_each (fun syntax '(func, calls) =>
              for_each (emit_edge func) calls syntax) fc syntax = inl e →
  ∃ j ty, e = TypeError j ty.
Proof.
  apply (for_each_raises _ (fun e => ∃ j ty, e = TypeError j ty)).
  intros s [func calls] e'.
  apply (for_each_raises _ (fun e => ∃ j ty, e = TypeError j ty)).
  intros s' [[target in_loop] params_passed] e''. unfold emit_edge, join_values.
  destruct (str_items 0 params_passed) as [e3|items] eqn:Hi; simpl; [|done].
  intros [= <-]. by eapply str_items_raises.
Qed.

End SerializerText.

(** ** The declarations in the text *)

Section Declarations.

Variable rt : Runtime.

Lemma last_definition_elim name l :
  match last_definition name l with
  | Some d =>
      ∃ i, l !! i = Some d ∧ def_name d = Some name
           ∧ name ∉ def_names (drop (S i) l)
  | None => name ∉ def_names l
  end.
Proof.
  induction l as [|n l IH]; simpl; [apply not_elem_of_nil|].
  destruct (last_definition name l) as [d|].
  - destruct IH as (i & Hi & Hd & Hpost). by exists (S i).
  - case_bool_decide as Hn.
    + exists 0. by rewrite drop_0.
    + unfold def_names. simpl. destruct (def_name n) as [m|]; [|done].
      apply not_elem_of_cons. split; [congruence | done].
Qed.

Lemma last_definition_last name l i d :
  l !! i = Some d → def_name d = Some name →
  name ∉ def_names (drop (S i) l) → last_definition name l = Some d.
Proof.
  revert i. induction l as [|n l IH]; intros i Hi Hd Hpost; [done|].
  destruct i as [|i]; simpl in *.
  - injection Hi as ->. rewrite drop_0 in Hpost.
    pose proof (last_definition_elim name l) as He.
    destruct (last_definition name l); [by destruct He as (? & ? & ? & ?);
      exfalso; apply Hpost; eapply def_names_elem;
      [by eapply list_elem_of_lookup_2|]|].
    by rewrite bool_decide_true.
  - by rewrite (IH i).
Qed.

(** The record kept under a listed name is the one of its last
    definition. *)
Lemma details_last_definition l st name :
  name ∈ def_names l →
  ∃ d, last_definition name l = Some d
       ∧ function_details (fold_left (visit rt) l st) !! name
         = Some (function_record rt d).
Proof.
  intros Hn. pose proof (last_definition_elim name l) as He.
  destruct (last_definition name l) as [d|]; [|done].
  destruct He as (i & Hi & Hd & Hpost). exists d. split; [done|].
  rewrite <- (take_drop_middle _ _ _ Hi). by apply details_last.
Qed.

(** The line the serializer builds is the node line of the record. *)
Lemma node_decl_line f r :
  node_decl f r
  = node_line f (join ", " (params r)) (or_None (returns r)) (doc_text r).
Proof.
  unfold node_decl, node_line, doc_text.
  by rewrite !string_app_assoc.
Qed.

Lemma node_section_declarations t names :
  (∀ f, f ∈ names → f ∈ def_names (walk t)) →
  node_section (function_details (analyze_ast rt t)) names
  = concat_lines (declaration rt (walk t) <$> names).
Proof.
  induction names as [|f names IH]; intros Hn; [done|].
  simpl. destruct (details_last_definition (walk t) initial f) as (d & Hd & Hr).
  { apply Hn. apply elem_of_cons. by left. }
  fold (analyze_ast rt t) in Hr. rewrite Hr, IH.
  - unfold declaration at 2. by rewrite Hd, node_decl_line.
  - intros g Hg. apply Hn. apply elem_of_cons. by right.
Qed.

(** The whole text of a run that prints: the header, the declaration of
    every member of the name list in order, the line of every recorded call
    in order, the closing fence. *)
Lemma render_text t text :
  render rt t = inr text →
  text = header
         +:+ concat_lines (declaration rt (walk t) <$> def_names (walk t))
         +:+ concat_lines
               (edge_line <$> all_edges (function_calls (analyze_ast rt t)))
         +:+ fence.
Proof.
  intros Htext. pose proof (generate_inr_printable _ _ _ _ Htext) as Hp.
  unfold render, generate_mermaid_syntax in Htext.
  rewrite emit_nodes_all in Htext.
  - simpl in Htext. rewrite emit_table_printable in Htext by done.
    simpl in Htext. injection Htext as <-.
    rewrite analysis_run, node_section_declarations by done.
    unfold header. by rewrite !string_app_assoc.
  - intros f Hf. rewrite analysis_run in Hf. by apply details_defined.
Qed.

(** A run prints when every recorded descriptor is a string. *)
Lemma render_prints t :
  printable (function_calls (analyze_ast rt t)) = true →
  ∃ text, render rt t = inr text.
Proof.
  intros Hp. apply generate_total; [|done].
  intros f Hf. rewrite analysis_run in Hf. by apply details_defined.
Qed.

End Declarations.

(** ** The scenario of the specification *)

(** [helper] returns a name, [main] returns nothing and calls [helper] in a
    loop with its parameter [n]. *)
Example call_in_loop_rendered (rt : Runtime) :
  render rt call_in_loop
  = inr (header
         +:+ "helper(helper\n\nPARAMS: x\n\nRETURNS: Name\n\nDOC: None)"
         +:+ nl
         +:+ "main(main\n\nPARAMS: n\n\nRETURNS: None\n\nDOC: None)"
         +:+ nl
         +:+ "main-->|" +:+ dquote +:+ "in_loop params: n" +:+ dquote
         +:+ "|helper;" +:+ nl +:+ fence).
Proof. reflexivity. Qed.

(** * The claims *)

(** C1: the label of a call edge is meant to say whether the call site lies
    inside a loop of the caller.  In [call_after_loop] the call of [helper]
    at path [[2; 0]] of [main] follows the loop and is under no loop node,
    yet the flag, once set by the loop node met earlier in the traversal, is
    still set when the call is reached: the edge is recorded with the flag
    true and printed with the label in_loop, where the label calls was
    due. *)
Theorem C1_call_outside_loop_labelled_in_loop (rt : Runtime) :
  ∃ main_def,
    node_at call_after_loop [1] = Some main_def
    ∧ def_name main_def = Some "main"
    ∧ node_at main_def [2; 0] = Some (call "helper" [var "n"])
    ∧ enclosed_in_loop main_def [2; 0] = false
    ∧ function_calls (analyze_ast rt call_after_loop)
      = [("main", [("helper", true, [CStr "n"])])]
    ∧ render rt call_after_loop
      = inr (header
             +:+ "helper(helper\n\nPARAMS: x\n\nRETURNS: Name\n\nDOC: None)"
             +:+ nl
             +:+ "main(main\n\nPARAMS: n\n\nRETURNS: None\n\nDOC: None)"
             +:+ nl
             +:+ "main-->|" +:+ dquote +:+ "in_loop params: n" +:+ dquote
             +:+ "|helper;" +:+ nl +:+ fence).
Proof.
  eexists. repeat split; reflexivity.
Qed.

(** C2: two runs on the same tree are meant to give the same text.  The
    RETURNS field is the join of a set of strings, iterated in hash order,
    and the hash of a string changes from one interpreter process to the
    next: on [two_return_kinds] one process prints Name before Constant and
    another prints Constant before Name. *)
Theorem C2_returns_order_follows_hash :
  cleandoc runtime_a = cleandoc runtime_b
  ∧ ast_parse runtime_a = ast_parse runtime_b
  ∧ render runtime_a two_return_kinds
    = inr (header
           +:+ "f(f\n\nPARAMS: x\n\nRETURNS: Name, Constant\n\nDOC: None)"
           +:+ nl +:+ fence)
  ∧ render runtime_b two_return_kinds
    = inr (header
           +:+ "f(f\n\nPARAMS: x\n\nRETURNS: Constant, Name\n\nDOC: None)"
           +:+ nl +:+ fence)
  ∧ render runtime_a two_return_kinds ≠ render runtime_b two_return_kinds.
Proof.
  repeat split; try reflexivity. vm_compute. discriminate.
Qed.

(** C3: serialization is meant never to raise on the result of an analysis.
    In [literal_argument] the call [f(1)] is recorded with the integer 1 as
    its argument descriptor, and joining the descriptors raises [TypeError]
    for item 0, an [int]: no text is produced. *)
Theorem C3_numeric_literal_argument_raises (rt : Runtime) :
  function_calls (analyze_ast rt literal_argument)
  = [("g", [("f", false, [CInt 1])])]
  ∧ render rt literal_argument = inl (TypeError 0 "int").
Proof.
  split; reflexivity.
Qed.

(** C4, as stated, fails: [defined_twice] defines [f] twice, the name list
    holds [f] twice, and the text declares the node [f] twice, not once. *)
Lemma C4_two_definitions_two_declarations :
  analysis (analyze_ast runtime_a defined_twice) = ["f"; "f"]
  ∧ List.length (filter (fun f => f = "f")
              (analysis (analyze_ast runtime_a defined_twice))) ≠ 1
  ∧ render runtime_a defined_twice
    = inr (header
           +:+ "f(f\n\nPARAMS: x\n\nRETURNS: None\n\nDOC: None)" +:+ nl
           +:+ "f(f\n\nPARAMS: x\n\nRETURNS: None\n\nDOC: None)" +:+ nl
           +:+ fence).
Proof.
  repeat split; try reflexivity. vm_compute. lia.
Qed.

(** C4, amended: when a name is defined more than once, the record kept
    under the name is the one of the definition visited last, the name list
    holds the name once per definition, and the text, when one is printed,
    is the header, then one declaration per member of the name list, in
    order, then the edge lines and the fence; the declaration of the name is
    the node line of the last definition's record.  A name defined k times
    is thus declared k times, each time from the last definition. *)
Theorem C4_last_definition_wins_each_declared (rt : Runtime) (t : node)
    (i : nat) (d : node) (name : string) :
  walk t !! i = Some d → def_name d = Some name →
  name ∉ def_names (drop (S i) (walk t)) →
  function_details (analyze_ast rt t) !! name = Some (function_record rt d)
  ∧ analysis (analyze_ast rt t) = def_names (walk t)
  ∧ declaration rt (walk t) name
    = name +:+ "(" +:+ name
        +:+ "\n\nPARAMS: " +:+ join ", " (params (function_record rt d))
        +:+ "\n\nRETURNS: " +:+ or_None (returns (function_record rt d))
        +:+ "\n\nDOC: " +:+ doc_text (function_record rt d)
        +:+ ")" +:+ nl
  ∧ (printable (function_calls (analyze_ast rt t)) = true →
     ∃ text, render rt t = inr text)
  ∧ ∀ text, render rt t = inr text →
      text = header
             +:+ concat_lines
                   (declaration rt (walk t) <$> def_names (walk t))
             +:+ concat_lines
                   (edge_line
                      <$> all_edges (function_calls (analyze_ast rt t)))
             +:+ fence.
Proof.
  intros Hi Hd Hpost. split; [by eapply details_run|].
  split; [apply analysis_run|]. split; [|split].
  - unfold declaration. by rewrite (last_definition_last name _ i d).
  - apply render_prints.
  - apply render_text.
Qed.

Lemma C4_last_definition_wins_each_declared_witness :
  function_details (analyze_ast runtime_a defined_twice) !! "f"
  = Some {| params := ["x"]; returns := "None"; docstring := None |}
  ∧ render runtime_a defined_twice
    = inr (header
           +:+ concat_lines
                 [ "f(f\n\nPARAMS: x\n\nRETURNS: None\n\nDOC: None)" +:+ nl;
                   "f(f\n\nPARAMS: x\n\nRETURNS: None\n\nDOC: None)" +:+ nl ]
           +:+ concat_lines [] +:+ fence).
Proof.
  destruct (C4_last_definition_wins_each_declared runtime_a defined_twice 2
              (def "f" ["x"] [Pass]) "f") as (Hd & _ & _ & Hp & Ht).
  - reflexivity.
  - reflexivity.
  - vm_compute. apply not_elem_of_nil.
  - split; [exact Hd|].
    destruct Hp as [text Htext]; [reflexivity|].
    rewrite Htext. f_equal. rewrite (Ht text Htext). reflexivity.
Defined.

(** C5: when the node at position [i] of the traversal is visited, a call
    to a name that is not in the name list the visit works with (the names
    of the definitions visited so far, the visited one included) adds no
    record: the calls to that name are the same after the visit as before
    it.  A name that never enters the list has no recorded call at all.  The
    analysis is a total function, so nothing is raised or reported either:
    calls to built-ins, to imported functions and to functions defined later
    in traversal order are passed over. *)
Theorem C5_unknown_target_not_linked (rt : Runtime) (t : node) (i : nat)
    (n : node) (target : string) :
  walk t !! i = Some n →
  target ∉ analysis (fold_left (visit rt) (take (S i) (walk t)) initial) →
  edges_to target
    (function_calls (fold_left (visit rt) (take (S i) (walk t)) initial))
  = edges_to target
      (function_calls (fold_left (visit rt) (take i (walk t)) initial))
  ∧ (target ∉ analysis (analyze_ast rt t) →
     edges_to target (function_calls (analyze_ast rt t)) = []).
Proof.
  intros Hi Hn. split.
  - rewrite (take_S_r _ _ _ Hi) in Hn |- *.
    rewrite fold_left_app in Hn |- *. simpl in Hn |- *.
    by apply visit_unknown.
  - intros Hall. unfold analyze_ast in *.
    by rewrite edges_to_fold_unknown.
Qed.

Lemma C5_unknown_target_not_linked_witness :
  edges_to "b"
    (function_calls
       (fold_left (visit runtime_a) (take 2 (walk forward_reference)) initial))
  = []
  ∧ edges_to "len" (function_calls (analyze_ast runtime_a forward_reference))
    = [].
Proof.
  split.
  - destruct (C5_unknown_target_not_linked runtime_a forward_reference 1
                (def "a" [] [Expr (call "b" [])]) "b") as [H _].
    + reflexivity.
    + vm_compute. intros H. apply list_elem_of_singleton in H. discriminate.
    + rewrite H. reflexivity.
  - destruct (C5_unknown_target_not_linked runtime_a forward_reference 1
                (def "a" [] [Expr (call "b" [])]) "len") as [_ H].
    + reflexivity.
    + vm_compute. intros H. apply list_elem_of_singleton in H. discriminate.
    + apply H. vm_compute. intros Hin.
      apply elem_of_cons in Hin as [Hin|Hin]; [discriminate|].
      apply list_elem_of_singleton in Hin. discriminate.
Defined.




(** C7: when validation does not answer [True], [main] logs one error
    record made of the validation message, returns without raising, and
    leaves the files as they were: nothing is parsed and nothing written. *)
Theorem C7_failed_validation_logs_and_stops (rt : Runtime) (w : world)
    (file_path output_path : string) :
  validate_file_path w file_path ≠ VTrue →
  ∃ message,
    validate_file_path w file_path = VStr message
    ∧ (message = "File does not exist." ∨ message = "Not a Python file.")
    ∧ main rt w file_path output_path
      = (Returned, logging ERROR ("Validation failed: " +:+ message) w)
    ∧ files (main rt w file_path output_path).2 = files w
    ∧ log (main rt w file_path output_path).2
      = log w ++ [(ERROR, "Validation failed: " +:+ message)].
Proof.
  intros Hv. unfold main.
  destruct (validate_file_path w file_path) as [|message] eqn:Hm; [done|].
  exists message. split; [done|]. split; [|done].
  unfold validate_file_path in Hm.
  repeat case_match; simplify_eq; auto.
Qed.

Lemma C7_failed_validation_logs_and_stops_witness :
  main runtime_a sample_world "missing.py" "out.md"
  = (Returned,
     logging ERROR "Validation failed: File does not exist." sample_world)
  ∧ main runtime_a sample_world "notes.txt" "out.md"
    = (Returned,
       logging ERROR "Validation failed: Not a Python file." sample_world).
Proof.
  split.
  - destruct (C7_failed_validation_logs_and_stops runtime_a sample_world
                "missing.py" "out.md") as (m & Hm & _ & Hmain & _).
    + vm_compute. discriminate.
    + rewrite Hmain. vm_compute in Hm. injection Hm as <-. reflexivity.
  - destruct (C7_failed_validation_logs_and_stops runtime_a sample_world
                "notes.txt" "out.md") as (m & Hm & _ & Hmain & _).
    + vm_compute. discriminate.
    + rewrite Hmain. vm_compute in Hm. injection Hm as <-. reflexivity.
Defined.

(** C8: the validator answers "File does not exist." exactly when nothing
    exists at the path, "Not a Python file." exactly when something exists
    there and the path does not end in [.py], and [True] exactly when
    something exists there and the path ends in [.py]. *)
Theorem C8_validator_outcomes (w : world) (file_path : string) :
  (validate_file_path w file_path = VStr "File does not exist."
   ↔ files w !! file_path = None)
  ∧ (validate_file_path w file_path = VStr "Not a Python file."
     ↔ is_Some (files w !! file_path)
       ∧ ¬ ∃ stem, file_path = stem +:+ ".py")
  ∧ (validate_file_path w file_path = VTrue
     ↔ is_Some (files w !! file_path) ∧ ∃ stem, file_path = stem +:+ ".py").
Proof.
  unfold validate_file_path. rewrite <- endswith_spec.
  destruct (files w !! file_path) as [e|] eqn:He.
  - rewrite bool_decide_false by done.
    destruct (endswith file_path ".py"); simpl;
      repeat split; try done; try (intros [_ H]; done);
      try (intros _; split; [eauto | done]); try (intros [_ H]; by destruct H).
  - rewrite bool_decide_true by done.
    repeat split; try done; intros [[? H] _]; done.
Qed.

(** C9: a function definition anywhere in the tree, with a call of its own
    name anywhere below it, has a call recorded from its name to its name
    when the run ends, carrying the descriptors of that call's arguments:
    the name is put on the list before the body is scanned. *)
Theorem C9_self_call_recorded (rt : Runtime) (t : node) (path : list nat)
    (d : node) (name : string) (site : list nat) (ctx : node)
    (cargs keywords : list node) :
  node_at t path = Some d → def_name d = Some name →
  node_at d site = Some (Call (Name name ctx) cargs keywords) →
  ∃ in_loop,
    (name, (name, in_loop, descriptor <$> cargs))
      ∈ all_edges (function_calls (analyze_ast rt t)).
Proof.
  intros Hd Hname Hsite.
  apply walk_complete in Hd. apply walk_complete in Hsite.
  apply list_elem_of_split in Hd as (l1 & l2 & Hw).
  unfold analyze_ast. rewrite Hw.
  eapply call_recorded; [done..|].
  apply elem_of_app. right. by apply list_elem_of_singleton.
Qed.

Lemma C9_self_call_recorded_witness :
  ∃ in_loop,
    ("inner", ("inner", in_loop, []))
      ∈ all_edges (function_calls (analyze_ast runtime_a nested_recursive)).
Proof.
  apply (C9_self_call_recorded runtime_a nested_recursive [0; 1]
           (def "inner" [] [Expr (call "inner" [])]) "inner" [1; 0] Load [] []);
    reflexivity.
Defined.



(** * Further properties *)

(** ** The traversal yields the nodes of the tree and nothing else *)

Section TraversalSound.

Lemma Walk_sound todo out :
  Walk todo out →
  ∀ d, d ∈ out → ∃ m path, m ∈ todo ∧ node_at m path = Some d.
Proof.
  induction 1 as [|n rest out _ IH]; intros d Hd.
  - by apply elem_of_nil in Hd.
  - apply elem_of_cons in Hd as [->|Hd].
    + exists n, []. split; [apply elem_of_cons; by left | done].
    + destruct (IH d Hd) as (m & path & Hm & Hpath).
      apply elem_of_app in Hm as [Hm|Hm].
      * exists m, path. split; [apply elem_of_cons; by right | done].
      * apply list_elem_of_lookup in Hm as [i Hi].
        exists n, (i :: path). split; [apply elem_of_cons; by left|].
        simpl. by rewrite Hi.
Qed.

Lemma walk_sound n d : d ∈ walk n → ∃ path, node_at n path = Some d.
Proof.
  intros Hd. destruct (Walk_sound [n] (walk n) (walk_Walk n) d Hd)
    as (m & path & Hm & Hpath).
  apply list_elem_of_singleton in Hm as ->. eauto.
Qed.

Lemma Walk_length todo out : Walk todo out → List.length out = total_size todo.
Proof.
  induction 1 as [|n rest out _ IH]; [done|].
  simpl. rewrite IH, total_size_app.
  change (total_size (n :: rest)) with (size n + total_size rest).
  rewrite size_children. lia.
Qed.

End TraversalSound.

(** ** What a visit adds to the call table *)

Section Records.

Implicit Types (fc : list (string * list call_record)) (e : call_record).

(** The flag after a scan: set before, or a loop node was scanned. *)
Lemma scan_fold_flag_value known caller l acc :
  (fold_left (scan_node known caller) l acc).1 = acc.1 || existsb is_loop l.
Proof.
  revert acc. induction l as [|n l IH]; intros acc; simpl.
  - by rewrite orb_false_r.
  - rewrite IH. rewrite orb_assoc. f_equal.
    unfold scan_node. destruct acc as [flag fc]. simpl.
    destruct n as [| | | | | | | |[]| | |]; destruct flag; simpl; try done;
      by case_bool_decide.
Qed.

Lemma scan_node_new known caller acc n x :
  x ∈ all_edges (scan_node known caller acc n).2 →
  x ∈ all_edges acc.2
  ∨ ∃ id ctx args keywords,
      n = Call (Name id ctx) args keywords ∧ id ∈ known
      ∧ x = (caller, (id, acc.1, descriptor <$> args)).
Proof.
  unfold scan_node.
  destruct n as [| | | | | | | |[]| | |]; simpl; auto.
  case_bool_decide as Hid; simpl; auto.
  intros Hx. apply all_edges_append_call in Hx as [Hx| ->]; [by left|].
  right. eauto 10.
Qed.

(** A record in the table after a scan was there before, or belongs to a
    call node of the scanned list whose target is on the list, and carries
    the flag as it stood when that node was reached. *)
Lemma scan_fold_new known caller l acc x :
  x ∈ all_edges (fold_left (scan_node known caller) l acc).2 →
  x ∈ all_edges acc.2
  ∨ ∃ l1 id ctx args keywords l2,
      l = l1 ++ Call (Name id ctx) args keywords :: l2 ∧ id ∈ known
      ∧ x = (caller,
             (id, acc.1 || existsb is_loop l1, descriptor <$> args)).
Proof.
  induction l as [|n l IH] using rev_ind; simpl; [auto|].
  rewrite fold_left_app. simpl. intros Hx.
  apply scan_node_new in Hx as [Hx|Hx].
  - destruct (IH Hx) as [Hold|Hnew]; [by left|]. right.
    destruct Hnew as (l1 & id & ctx & args & kws & l2 & -> & Hid & ->).
    exists l1, id, ctx, args, kws, (l2 ++ [n]).
    by rewrite <- app_assoc.
  - right. destruct Hx as (id & ctx & args & kws & -> & Hid & ->).
    exists l, id, ctx, args, kws, []. rewrite scan_fold_flag_value. done.
Qed.

Lemma all_edges_append_call_length fc key e :
  List.length (all_edges (append_call fc key e))
  = S (List.length (all_edges fc)).
Proof.
  induction fc as [|[k es] fc IH]; simpl; [done|].
  case_bool_decide; simpl.
  - rewrite !length_app, !length_fmap, length_app. simpl. lia.
  - rewrite !length_app, IH. lia.
Qed.

Lemma scan_node_length known caller acc n :
  List.length (all_edges (scan_node known caller acc n).2)
  = List.length (all_edges acc.2) + (if known_call known n then 1 else 0).
Proof.
  unfold scan_node, known_call.
  destruct n as [| | | | | | | |[]| | |]; simpl; try lia.
  case_bool_decide; simpl; [|lia].
  rewrite all_edges_append_call_length. lia.
Qed.

Lemma scan_fold_length known caller l acc :
  List.length (all_edges (fold_left (scan_node known caller) l acc).2)
  = List.length (all_edges acc.2)
    + List.length (filter (fun n => known_call known n = true) l).
Proof.
  revert acc. induction l as [|n l IH]; intros acc; simpl; [lia|].
  rewrite IH, scan_node_length.
  destruct (known_call known n) eqn:Hn.
  - rewrite filter_cons_True by done. simpl. lia.
  - rewrite filter_cons_False by (by rewrite Hn). lia.
Qed.

End Records.

(** ** Invariants of the analysis *)

Section Invariants.

Variable rt : Runtime.

Lemma visit_new st d name x :
  def_name d = Some name →
  x ∈ all_edges (function_calls (visit rt st d)) →
  x ∈ all_edges (function_calls st)
  ∨ ∃ l1 id ctx args keywords l2,
      walk d = l1 ++ Call (Name id ctx) args keywords :: l2
      ∧ id ∈ analysis (visit rt st d)
      ∧ x = (name, (id, existsb is_loop l1, descriptor <$> args)).
Proof.
  intros Hd Hx. destruct d; try done. injection Hd as ->.
  cbn [visit function_calls analysis] in Hx |- *.
  by apply (scan_fold_new _ _ _ (false, function_calls st)) in Hx.
Qed.

Lemma visit_adds st d name l1 id ctx args keywords l2 :
  def_name d = Some name →
  walk d = l1 ++ Call (Name id ctx) args keywords :: l2 →
  id ∈ analysis (visit rt st d) →
  (name, (id, existsb is_loop l1, descriptor <$> args))
    ∈ all_edges (function_calls (visit rt st d)).
Proof.
  intros Hd Hw Hid. destruct d; try done. injection Hd as ->.
  cbn [visit function_calls analysis] in Hid |- *.
  rewrite Hw, fold_left_app. simpl. apply scan_fold_mono.
  pose proof (scan_fold_flag_value (analysis st ++ [name]) name l1
                (false, function_calls st)) as Hf.
  destruct (fold_left _ l1 _) as [flag fc]. simpl in Hf. subst flag.
  unfold scan_node. simpl. rewrite bool_decide_true by done. simpl.
  apply all_edges_append_call. by right.
Qed.

Lemma analysis_visit_mono st n name :
  name ∈ analysis st → name ∈ analysis (visit rt st n).
Proof.
  intros Hn. rewrite analysis_visit. apply elem_of_app. by left.
Qed.

(** Both ends of every recorded call are on the name list. *)
Lemma edges_listed_fold l st :
  (∀ x, x ∈ all_edges (function_calls st) →
        caller_of x ∈ analysis st ∧ callee x ∈ analysis st) →
  ∀ x, x ∈ all_edges (function_calls (fold_left (visit rt) l st)) →
       caller_of x ∈ analysis (fold_left (visit rt) l st)
       ∧ callee x ∈ analysis (fold_left (visit rt) l st).
Proof.
  revert st. induction l as [|n l IH]; intros st Hst; simpl; [done|].
  apply IH. destruct (def_name n) as [name|] eqn:Hn; intros x Hx.
  - apply visit_new with (name := name) in Hx as [Hx|Hx]; [| |done].
    + destruct (Hst x Hx). split; by apply analysis_visit_mono.
    + destruct Hx as (l1 & id & ctx & args & kws & l2 & _ & Hid & ->).
      split; [|done]. unfold caller_of. simpl.
      destruct n; try done. injection Hn as ->. simpl.
      apply elem_of_app. right. by apply list_elem_of_singleton.
  - rewrite visit_not_def in Hx |- * by done. by apply Hst.
Qed.

(** The call table and the name list do not depend on the runtime. *)
Lemma graph_fold_runtime (rt' : Runtime) l st st' :
  analysis st = analysis st' → function_calls st = function_calls st' →
  analysis (fold_left (visit rt) l st) = analysis (fold_left (visit rt') l st')
  ∧ function_calls (fold_left (visit rt) l st)
    = function_calls (fold_left (visit rt') l st').
Proof.
  revert st st'. induction l as [|n l IH]; intros st st' Ha Hc; simpl;
    [done|].
  apply IH; destruct n; simpl; by rewrite ?Ha, ?Hc.
Qed.

End Invariants.

(** X1: the names on the list are exactly the names of the function
    definition nodes of the tree, at any depth. *)
Theorem listed_names_are_definitions (rt : Runtime) (t : node)
    (name : string) :
  name ∈ analysis (analyze_ast rt t)
  ↔ ∃ path d, node_at t path = Some d ∧ def_name d = Some name.
Proof.
  rewrite analysis_run. split.
  - intros Hn. apply list_elem_of_omap in Hn as (d & Hd & Hname).
    apply walk_sound in Hd as [path Hpath]. eauto.
  - intros (path & d & Hpath & Hname).
    eapply def_names_elem; [|done]. by eapply walk_complete.
Qed.

(** X2: the details table has a record for a name exactly when the name is
    on the list, so the serializer's lookup [function_details[func]] never
    meets a missing name. *)
Theorem details_cover_listed_names (rt : Runtime) (t : node) (name : string) :
  function_details (analyze_ast rt t) !! name = None
  ↔ name ∉ analysis (analyze_ast rt t).
Proof.
  rewrite analysis_run. split.
  - intros Hnone Hin.
    destruct (details_defined rt (walk t) initial name Hin) as [r Hr].
    fold (analyze_ast rt t) in Hr. congruence.
  - intros Hn. unfold analyze_ast. by rewrite details_fold_other.
Qed.

(** X3: every recorded call joins two names of the list: the caller and the
    target are both declared as nodes of the graph. *)
Theorem edges_join_listed_names (rt : Runtime) (t : node)
    (x : string * call_record) :
  x ∈ all_edges (function_calls (analyze_ast rt t)) →
  caller_of x ∈ analysis (analyze_ast rt t)
  ∧ callee x ∈ analysis (analyze_ast rt t).
Proof.
  apply edges_listed_fold. intros y Hy. by apply elem_of_nil in Hy.
Qed.

Lemma edges_join_listed_names_witness :
  "main" ∈ analysis (analyze_ast runtime_a call_in_loop)
  ∧ "helper" ∈ analysis (analyze_ast runtime_a call_in_loop).
Proof.
  apply (edges_join_listed_names runtime_a call_in_loop
           ("main", ("helper", true, [CStr "n"]))).
  vm_compute. apply list_elem_of_singleton. reflexivity.
Defined.

(** X4: the records a visit adds are, one for one, those of the call nodes
    in the traversal of the definition whose target is a plain name on the
    list; a record carries the flag true exactly when a [For] or [While]
    node comes earlier in that traversal than its call node. *)
Theorem visit_records (rt : Runtime) (st : state) (d : node) (name : string)
    (x : string * call_record) :
  def_name d = Some name →
  x ∈ all_edges (function_calls (visit rt st d))
  ↔ x ∈ all_edges (function_calls st)
    ∨ ∃ l1 id ctx args keywords l2,
        walk d = l1 ++ Call (Name id ctx) args keywords :: l2
        ∧ id ∈ analysis (visit rt st d)
        ∧ x = (name, (id, existsb is_loop l1, descriptor <$> args)).
Proof.
  intros Hd. split.
  - by apply visit_new.
  - intros [Hx|Hx]; [by apply visit_mono|].
    destruct Hx as (l1 & id & ctx & args & kws & l2 & Hw & Hid & ->).
    by eapply visit_adds.
Qed.

Lemma visit_records_witness :
  ("main", ("helper", true, [CStr "n"]))
    ∈ all_edges (function_calls
         (visit runtime_a
            {| analysis := ["helper"]; function_calls := [];
               function_details := ∅ |}
            (def "main" ["n"]
               [for_range "i" "n" [Pass]; Expr (call "helper" [var "n"])]))).
Proof.
  apply (visit_records runtime_a _ _ "main"); [reflexivity|].
  right.
  exists (take 8 (walk (def "main" ["n"]
            [for_range "i" "n" [Pass]; Expr (call "helper" [var "n"])]))),
    "helper", Load, [var "n"], [],
    (drop 9 (walk (def "main" ["n"]
            [for_range "i" "n" [Pass]; Expr (call "helper" [var "n"])]))).
  split; [|split].
  - reflexivity.
  - vm_compute. apply elem_of_cons. left. reflexivity.
  - reflexivity.
Defined.

(** X5: calls are not merged: visiting a definition adds exactly one record
    per call node of its traversal whose target is a plain name on the
    list, however many of them share caller, target and arguments. *)
Theorem one_record_per_known_call (rt : Runtime) (st : state) (d : node)
    (name : string) :
  def_name d = Some name →
  List.length (all_edges (function_calls (visit rt st d)))
  = List.length (all_edges (function_calls st))
    + List.length
        (filter (fun n => known_call (analysis st ++ [name]) n = true)
           (walk d)).
Proof.
  intros Hd. destruct d; try done. injection Hd as ->.
  cbn [visit function_calls].
  by rewrite (scan_fold_length _ _ _ (false, function_calls st)).
Qed.

Lemma one_record_per_known_call_witness :
  List.length
    (all_edges (function_calls
       (visit runtime_a initial
          (def "f" [] [Expr (call "f" []); Expr (call "f" [])]))))
  = 2.
Proof.
  rewrite (one_record_per_known_call runtime_a initial _ "f"); reflexivity.
Defined.

(** X6: a definition with no [For] and no [While] node anywhere below it
    gets only records with the flag false, printed with the label calls. *)
Theorem no_loop_records_unflagged (rt : Runtime) (st : state) (d : node)
    (name : string) (x : string * call_record) :
  def_name d = Some name → existsb is_loop (walk d) = false →
  x ∈ all_edges (function_calls (visit rt st d)) →
  x ∈ all_edges (function_calls st) ∨ (caller_of x = name ∧ flag_of x = false).
Proof.
  intros Hd Hloop Hx.
  apply visit_new with (name := name) in Hx as [Hx|Hx]; [by left| |done].
  right. destruct Hx as (l1 & id & ctx & args & kws & l2 & Hw & _ & ->).
  split; [done|]. unfold flag_of. simpl.
  rewrite Hw, existsb_app in Hloop. by apply orb_false_iff in Hloop as [? _].
Qed.

Lemma no_loop_records_unflagged_witness :
  ("inner", ("inner", false, []))
    ∈ all_edges (function_calls initial)
  ∨ (caller_of ("inner", ("inner", false, [])) = "inner"
     ∧ flag_of ("inner", ("inner", false, @nil constant)) = false).
Proof.
  apply (no_loop_records_unflagged runtime_a initial
           (def "inner" [] [Expr (call "inner" [])]) "inner").
  - reflexivity.
  - reflexivity.
  - vm_compute. apply list_elem_of_singleton. reflexivity.
Defined.

(** X7: a call, by plain name, of a name already on the list when the
    enclosing definition is visited (the names of the definitions that come
    no later in the traversal) is in the table at the end of the run, under
    the name of that definition and with the descriptors of its arguments;
    this holds for every definition the call lies below, so a call inside a
    nested definition is also recorded for the outer one. *)
Theorem known_call_recorded (rt : Runtime) (t : node) (i : nat) (d : node)
    (name : string) (site : list nat) (id : string) (ctx : node)
    (cargs keywords : list node) :
  walk t !! i = Some d → def_name d = Some name →
  node_at d site = Some (Call (Name id ctx) cargs keywords) →
  id ∈ def_names (take (S i) (walk t)) →
  ∃ in_loop,
    (name, (id, in_loop, descriptor <$> cargs))
      ∈ all_edges (function_calls (analyze_ast rt t)).
Proof.
  intros Hi Hd Hsite Hid. apply walk_complete in Hsite.
  unfold analyze_ast. rewrite <- (take_drop_middle _ _ _ Hi).
  eapply call_recorded; [done..|].
  rewrite analysis_fold. simpl.
  rewrite (take_S_r _ _ _ Hi) in Hid. unfold def_names in Hid |- *.
  rewrite omap_app in Hid. simpl in Hid. by rewrite Hd in Hid.
Qed.

Lemma known_call_recorded_witness :
  ∃ in_loop,
    ("outer", ("outer", in_loop, []))
      ∈ all_edges (function_calls (analyze_ast runtime_a nested_calls_outer)).
Proof.
  apply (known_call_recorded runtime_a nested_calls_outer 1
           (def "outer" [] [def "inner" [] [Expr (call "outer" [])]])
           "outer" [1; 1; 0] "outer" Load [] []).
  - reflexivity.
  - reflexivity.
  - reflexivity.
  - vm_compute. apply list_elem_of_singleton. reflexivity.
Defined.

(** X8: a call site under a [For] or [While] node of a definition, calling
    by plain name a name already on the list when the definition is
    visited, is in the table at the end of the run with the flag true. *)
Theorem call_site_under_loop_flagged (rt : Runtime) (t : node) (i : nat)
    (d : node) (name : string) (site : list nat) (id : string) (ctx : node)
    (cargs keywords : list node) :
  walk t !! i = Some d → def_name d = Some name →
  node_at d site = Some (Call (Name id ctx) cargs keywords) →
  enclosed_in_loop d site = true →
  id ∈ def_names (take (S i) (walk t)) →
  (name, (id, true, descriptor <$> cargs))
    ∈ all_edges (function_calls (analyze_ast rt t)).
Proof.
  intros Hi Hd Hsite Henc Hid.
  unfold analyze_ast. rewrite <- (take_drop_middle _ _ _ Hi).
  rewrite fold_left_app. simpl. apply visit_fold_mono.
  eapply call_under_loop_flagged; [done..|].
  rewrite analysis_visit, analysis_fold. simpl.
  rewrite (take_S_r _ _ _ Hi) in Hid. unfold def_names in Hid |- *.
  by rewrite omap_app in Hid.
Qed.

Lemma call_site_under_loop_flagged_witness :
  ("main", ("helper", true, [CStr "n"]))
    ∈ all_edges (function_calls (analyze_ast runtime_a call_in_loop)).
Proof.
  apply (call_site_under_loop_flagged runtime_a call_in_loop 2
           (def "main" ["n"]
              [for_range "i" "n" [Expr (call "helper" [var "n"])]])
           "main" [1; 2; 0] "helper" Load [var "n"] []).
  - reflexivity.
  - reflexivity.
  - reflexivity.
  - reflexivity.
  - vm_compute. apply elem_of_cons. left. reflexivity.
Defined.

(** ** What depends on the runtime and what does not *)

Section RuntimeDependence.

Lemma set_add_elem k x s : k ∈ set_add x s ↔ k = x ∨ k ∈ s.
Proof.
  unfold set_add. case_bool_decide as Hx.
  - split; [by right|]. by intros [->|?].
  - rewrite elem_of_app, list_elem_of_singleton. tauto.
Qed.

Lemma set_add_NoDup x s : NoDup s → NoDup (set_add x s).
Proof.
  intros Hs. unfold set_add. case_bool_decide as Hx; [done|].
  apply NoDup_app. split; [done|]. split; [|apply NoDup_singleton].
  intros y Hy Hyx. apply list_elem_of_singleton in Hyx as ->. done.
Qed.

Lemma return_types_fold l s :
  let kinds :=
    fold_left (fun s sub_node =>
                 match sub_node with
                 | Return (Some v) => set_add (type_name v) s
                 | _ => s
                 end) l s in
  (NoDup s → NoDup kinds)
  ∧ ∀ k, k ∈ kinds ↔ k ∈ s ∨ ∃ v, Return (Some v) ∈ l ∧ type_name v = k.
Proof.
  revert s. induction l as [|n l IH]; intros s; simpl.
  - split; [done|]. intros k. split; [by left|].
    intros [?|(v & Hv & _)]; [done|]. by apply elem_of_nil in Hv.
  - set (s' := match n with
               | Return (Some v) => set_add (type_name v) s
               | _ => s
               end).
    destruct (IH s') as [Hnd Hin]. split.
    + intros Hs. apply Hnd. unfold s'.
      destruct n as [| | | |[v|]| | | | | | |]; try done.
      by apply set_add_NoDup.
    + intros k. rewrite Hin. unfold s'. split.
      * intros [Hk|(v & Hv & Hk)].
        -- destruct n as [| | | |[v|]| | | | | | |]; try by left.
           apply set_add_elem in Hk as [->|Hk]; [|by left].
           right. exists v. split; [apply elem_of_cons; by left | done].
        -- right. exists v. split; [apply elem_of_cons; by right | done].
      * intros [Hk|(v & Hv & Hk)].
        -- left. destruct n as [| | | |[v|]| | | | | | |]; try done.
           apply set_add_elem. by right.
        -- apply elem_of_cons in Hv as [<-|Hv].
           ++ left. apply set_add_elem. by left.
           ++ right. eauto.
Qed.

Lemma insert_by_hash_perm h x l : insert_by_hash h x l ≡ₚ x :: l.
Proof.
  induction l as [|y l IH]; simpl; [done|].
  destruct (h x <? h y)%Z; [done|]. rewrite IH. apply Permutation_swap.
Qed.

(** Iterating a set yields its members, each once, in some order. *)
Lemma set_iter_perm h s : set_iter h s ≡ₚ s.
Proof.
  unfold set_iter.
  assert (H : ∀ acc,
    fold_left (fun acc x => insert_by_hash h x acc) s acc ≡ₚ s ++ acc).
  { induction s as [|x s IH]; intros acc; simpl; [done|].
    rewrite IH, insert_by_hash_perm. by rewrite Permutation_middle. }
  rewrite H. by rewrite app_nil_r.
Qed.

Lemma has_value_return_elem l :
  has_value_return l = true ↔ ∃ v, Return (Some v) ∈ l.
Proof.
  unfold has_value_return. rewrite existsb_exists. split.
  - intros (n & Hn & Hv). destruct n as [| | | |[v|]| | | | | | |]; try done.
    exists v. by apply list_elem_of_In.
  - intros (v & Hv). exists (Return (Some v)).
    split; [by apply list_elem_of_In | done].
Qed.

(** With at most one class of returned value the record does not depend on
    the string hash. *)
Lemma function_record_single_kind rt1 rt2 d :
  cleandoc rt1 = cleandoc rt2 →
  List.length (return_types (walk d)) ≤ 1 →
  function_record rt1 d = function_record rt2 d.
Proof.
  intros Hc Hlen. destruct d; try done. simpl in *.
  unfold get_docstring. rewrite Hc. f_equal.
  unfold returns_text.
  destruct (return_types _) as [|k [|k' ks]]; simpl in *; try done. lia.
Qed.

Lemma visit_single_kind rt1 rt2 l st :
  cleandoc rt1 = cleandoc rt2 → single_return_kind l = true →
  fold_left (visit rt1) l st = fold_left (visit rt2) l st.
Proof.
  intros Hc. revert st. induction l as [|n l IH]; intros st Hl; simpl;
    [done|].
  simpl in Hl. apply andb_true_iff in Hl as [Hn Hl].
  rewrite IH by done. f_equal.
  destruct (def_name n) as [name|] eqn:Hname.
  - apply bool_decide_eq_true in Hn.
    destruct n; try done. unfold visit.
    by rewrite (function_record_single_kind rt1 rt2).
  - by rewrite !visit_not_def.
Qed.

Lemma visit_no_definitions rt l st :
  def_names l = [] → fold_left (visit rt) l st = st.
Proof.
  revert st. induction l as [|n l IH]; intros st Hl; simpl; [done|].
  unfold def_names in Hl. simpl in Hl.
  destruct (def_name n) eqn:Hn; [done|].
  rewrite visit_not_def by done. by apply IH.
Qed.

End RuntimeDependence.

(** X9: the name list and the call table, hence the nodes and edges of the
    graph, are the same under every runtime: the string hash and the
    docstring cleaner reach the RETURNS and DOC fields only. *)
Theorem graph_independent_of_runtime (rt1 rt2 : Runtime) (t : node) :
  analysis (analyze_ast rt1 t) = analysis (analyze_ast rt2 t)
  ∧ function_calls (analyze_ast rt1 t) = function_calls (analyze_ast rt2 t).
Proof.
  by apply graph_fold_runtime.
Qed.

(** X10: when every function definition of the tree returns values of at most
    one class, two runtimes with the same docstring cleaner give the same
    analysis and the same text (or the same exception), whatever their
    string hashes. *)
Theorem single_return_kind_deterministic (rt1 rt2 : Runtime) (t : node) :
  cleandoc rt1 = cleandoc rt2 → single_return_kind (walk t) = true →
  analyze_ast rt1 t = analyze_ast rt2 t ∧ render rt1 t = render rt2 t.
Proof.
  intros Hc Hs.
  assert (Ha : analyze_ast rt1 t = analyze_ast rt2 t)
    by by apply visit_single_kind.
  split; [done|]. unfold render. by rewrite Ha.
Qed.

Lemma single_return_kind_deterministic_witness :
  render runtime_a call_in_loop = render runtime_b call_in_loop.
Proof.
  apply (single_return_kind_deterministic runtime_a runtime_b call_in_loop);
    reflexivity.
Defined.

(** X11: the RETURNS field of a definition is the text None when no [Return]
    below it carries a value, and otherwise the class names of the returned
    values, each listed once whatever the number of [Return] nodes of that
    class, joined by a comma and a space in some order. *)
Theorem returns_lists_each_kind_once (rt : Runtime) (d : node)
    (name : string) :
  def_name d = Some name →
  (has_value_return (walk d) = false
   ∧ returns (function_record rt d) = "None")
  ∨ (has_value_return (walk d) = true
     ∧ ∃ kinds,
         NoDup kinds
         ∧ (∀ k, k ∈ kinds
                 ↔ ∃ v, Return (Some v) ∈ walk d ∧ type_name v = k)
         ∧ returns (function_record rt d) = join ", " kinds).
Proof.
  intros Hd. destruct d; try done. cbn [function_record returns].
  set (w := walk _).
  destruct (return_types_fold w []) as [Hnd Hin].
  fold (return_types w) in Hnd, Hin.
  destruct (has_value_return w) eqn:Hv.
  - right. split; [done|].
    apply has_value_return_elem in Hv as [v Hv].
    assert (Hne : return_types w ≠ []).
    { intros Hnil. assert (Hk : type_name v ∈ return_types w)
        by (apply Hin; right; eauto).
      rewrite Hnil in Hk. by apply elem_of_nil in Hk. }
    exists (set_iter (str_hash rt) (return_types w)).
    split; [|split].
    + rewrite set_iter_perm. apply Hnd. constructor.
    + intros k. rewrite set_iter_perm, Hin. split.
      * intros [Hk|?]; [by apply elem_of_nil in Hk | done].
      * by right.
    + unfold returns_text. by destruct (return_types w).
  - left. split; [done|]. by rewrite return_types_none.
Qed.

Lemma returns_lists_each_kind_once_witness :
  ∃ kinds,
    NoDup kinds
    ∧ returns (function_record runtime_a
                 (def "f" ["x"]
                    [ Other "If" [var "x"; Return (Some (var "x"))];
                      Return (Some (Constant (CInt 1))) ]))
      = join ", " kinds.
Proof.
  destruct (returns_lists_each_kind_once runtime_a
              (def "f" ["x"]
                 [ Other "If" [var "x"; Return (Some (var "x"))];
                   Return (Some (Constant (CInt 1))) ]) "f")
    as [[Hv _]|[_ (kinds & Hnd & _ & Hr)]].
  - reflexivity.
  - vm_compute in Hv. discriminate.
  - exists kinds. by split.
Defined.

(** X12: a tree without any function definition, the empty program included,
    gives empty collections and the text made of the header and the closing
    fence alone. *)
Theorem no_definitions_empty_graph (rt : Runtime) (t : node) :
  def_names (walk t) = [] →
  analyze_ast rt t = initial ∧ render rt t = inr (header +:+ fence).
Proof.
  intros Hn.
  assert (Ha : analyze_ast rt t = initial) by by apply visit_no_definitions.
  split; [done|]. unfold render. by rewrite Ha.
Qed.

Lemma no_definitions_empty_graph_witness :
  render runtime_a (Module [Expr (call "print" [Constant (CInt 1)])] [])
  = inr (header +:+ fence).
Proof.
  apply (no_definitions_empty_graph runtime_a
           (Module [Expr (call "print" [Constant (CInt 1)])] [])).
  reflexivity.
Defined.


(** X13: given a record for every listed name and only strings as argument
    descriptors, the serializer returns the header, one declaration per
    member of the name list in list order, then one line per recorded call
    in table order (callers in order of their first recorded call, the
    calls of one caller in recording order), then the closing fence. *)
Theorem generate_text (a : list string)
    (fc : list (string * list call_record)) (fd : gmap string details) :
  (∀ f, f ∈ a → is_Some (fd !! f)) → printable fc = true →
  generate_mermaid_syntax a fc fd
  = inr (header +:+ node_section fd a
           +:+ concat_lines (edge_line <$> all_edges fc) +:+ fence).
Proof.
  intros Hfd Hp. unfold generate_mermaid_syntax.
  rewrite emit_nodes_all by done. simpl.
  rewrite emit_table_printable by done. simpl.
  unfold header. by rewrite !string_app_assoc.
Qed.

Lemma generate_text_witness :
  generate_mermaid_syntax ["f"] [("f", [("f", true, [CStr "x"])])]
    (<["f" := {| params := ["x"]; returns := "None"; docstring := None |}]> ∅)
  = inr (header
         +:+ ("f(f\n\nPARAMS: x\n\nRETURNS: None\n\nDOC: None)" +:+ nl)
         +:+ ("f-->|" +:+ dquote +:+ "in_loop params: x" +:+ dquote
              +:+ "|f;" +:+ nl)
         +:+ fence).
Proof.
  rewrite (generate_text ["f"] [("f", [("f", true, [CStr "x"])])]
             (<["f" := {| params := ["x"]; returns := "None";
                          docstring := None |}]> ∅)).
  - reflexivity.
  - intros f Hf. apply list_elem_of_singleton in Hf as ->.
    rewrite lookup_insert_eq. eauto.
  - reflexivity.
Defined.

(** X14: called with a name list that holds a name without a record, the
    serializer raises [KeyError] for the key params, whatever the call
    table holds: the declarations are built before any edge. *)
Theorem generate_missing_record_raises (a : list string)
    (fc : list (string * list call_record)) (fd : gmap string details)
    (f : string) :
  f ∈ a → fd !! f = None →
  generate_mermaid_syntax a fc fd = inl (KeyError "params").
Proof.
  intros Hf Hnone. unfold generate_mermaid_syntax.
  by rewrite (emit_nodes_missing fd a _ f).
Qed.

Lemma generate_missing_record_raises_witness :
  generate_mermaid_syntax ["f"] [("f", [("f", false, [CInt 1])])] ∅
  = inl (KeyError "params").
Proof.
  apply (generate_missing_record_raises _ _ _ "f").
  - apply list_elem_of_singleton. reflexivity.
  - apply lookup_empty.
Defined.

Lemma render_raises_only_TypeError_aux (rt : Runtime) (t : node) (e : exn) :
  render rt t = inl e → ∃ item found, e = TypeError item found.
Proof.
  unfold render, generate_mermaid_syntax. intros He.
  rewrite emit_nodes_all in He.
  - simpl in He.
    destruct (for_each _ (function_calls (analyze_ast rt t)) _)
      as [e'|s2] eqn:Hs2; simpl in He; [|done].
    injection He as <-. by eapply emit_table_raises.
  - intros f Hf. rewrite analysis_run in Hf. by apply details_defined.
Qed.

(** X15: on the result of an analysis the serializer never raises [KeyError]:
    it returns a text, or raises the [TypeError] of a join over a
    descriptor that is not a string, and it does the latter exactly when
    some recorded descriptor is not a string. *)
Theorem render_raises_only_TypeError (rt : Runtime) (t : node) :
  (printable (function_calls (analyze_ast rt t)) = true
   ∧ ∃ text, render rt t = inr text)
  ∨ (printable (function_calls (analyze_ast rt t)) = false
     ∧ ∃ item found, render rt t = inl (TypeError item found)).
Proof.
  destruct (render rt t) as [e|text] eqn:Hr.
  - right. destruct (render_raises_only_TypeError_aux rt t e Hr)
      as (i & ty & ->).
    split; [|eauto].
    destruct (printable _) eqn:Hp; [|done].
    apply render_returns_iff_printable in Hp as [text Ht]. congruence.
  - left. split; [|eauto]. by eapply generate_inr_printable.
Qed.

(** ** Whole runs of [main] *)

Section Main.

Variable rt : Runtime.

Lemma validate_VTrue w file_path :
  validate_file_path w file_path = VTrue
  ↔ is_Some (files w !! file_path) ∧ endswith file_path ".py" = true.
Proof.
  unfold validate_file_path.
  destruct (files w !! file_path) as [e|] eqn:He.
  - rewrite bool_decide_false by done.
    destruct (endswith file_path ".py"); simpl.
    + split; [eauto | done].
    + split; [done | by intros [_ ?]].
  - rewrite bool_decide_true by done. split; [done|].
    by intros [[? ?] _].
Qed.

Lemma basename_from_no_slash acc p :
  has_slash p = false → basename_from acc p = acc +:+ p.
Proof.
  revert acc. induction p as [|c p IH]; intros acc Hp; simpl in *.
  - by rewrite string_app_nil_r.
  - apply orb_false_iff in Hp as [Hc Hp]. rewrite Hc.
    rewrite IH by done. by rewrite string_app_assoc.
Qed.

Lemma basename_from_after_slash acc dir name :
  has_slash name = false → basename_from acc (dir +:+ "/" +:+ name) = name.
Proof.
  intros Hn. revert acc. induction dir as [|c dir IH]; intros acc.
  - change (basename_from acc (EmptyString +:+ "/" +:+ name))
      with (basename_from EmptyString name).
    by rewrite basename_from_no_slash.
  - rewrite string_app_cons. simpl. case_bool_decide; apply IH.
Qed.

(** Up to the write: a run on a readable file that parses and prints. *)
Lemma main_reaches_write w file_path output_path text t syntax :
  files w !! file_path = Some (File text) →
  endswith file_path ".py" = true →
  ast_parse rt text = inr t → render rt t = inr syntax →
  main rt w file_path output_path
  = let written :=
      write_file rt (files w) output_path
        (report (basename file_path) (now w) syntax) in
    match written.1 with
    | Some e =>
        (Raised e,
         {| files := written.2; log := log w ++ take 3 progress;
            now := now w |})
    | None =>
        (Returned,
         {| files := written.2; log := log w ++ progress; now := now w |})
    end.
Proof.
  intros Hf Hpy Hparse Hrender. unfold main.
  assert (Hv : validate_file_path w file_path = VTrue)
    by (apply validate_VTrue; split; [by rewrite Hf | done]).
  rewrite Hv. unfold parse_python_file. simpl. rewrite Hf, Hparse.
  unfold render in Hrender. rewrite Hrender.
  unfold write_to_markdown, report, logging, progress. simpl.
  destruct (write_file rt _ _ _) as [[e|] fs]; simpl;
    by rewrite <- !app_assoc.
Qed.

(** Short of the write the files stay as they are. *)
Lemma main_cases w file_path output_path :
  files (main rt w file_path output_path).2 = files w
  ∨ ∃ text t syntax,
      files w !! file_path = Some (File text)
      ∧ endswith file_path ".py" = true
      ∧ ast_parse rt text = inr t ∧ render rt t = inr syntax.
Proof.
  destruct (validate_file_path w file_path) eqn:Hv.
  - pose proof Hv as Hv'. apply validate_VTrue in Hv' as [[e He] Hpy].
    destruct e as [text| |e].
    + destruct (ast_parse rt text) as [e|t] eqn:Hp.
      * left. unfold main. rewrite Hv. unfold parse_python_file. simpl.
        by rewrite He, Hp.
      * destruct (render rt t) as [e|syntax] eqn:Hr.
        -- left. unfold main. rewrite Hv. unfold parse_python_file. simpl.
           rewrite He, Hp. unfold render in Hr. by rewrite Hr.
        -- right. eauto 10.
    + left. unfold main. rewrite Hv. unfold parse_python_file. simpl.
      by rewrite He.
    + left. unfold main. rewrite Hv. unfold parse_python_file. simpl.
      by rewrite He.
  - left. unfold main. by rewrite Hv.
Qed.

End Main.

(** X16: on an existing [.py] file that is read and parsed and whose graph
    is printed, [main] hands the operating system one write, of the report
    (title, base name of the source path, clock reading, graph text)
    through the output path, and ends as that write ends: when it is
    accepted, [main] returns with the four progress records logged in
    order; when it raises, [main] raises the same exception with the first
    three logged; either way the files are those the system left.  The base
    name is the part of the source path after its last slash, the whole
    path when it has none. *)
Theorem main_writes_report (rt : Runtime) (w : world)
    (file_path output_path text : string) (t : node) (syntax : string)
    (result : option exn) (left_files : gmap string entry) :
  files w !! file_path = Some (File text) →
  endswith file_path ".py" = true →
  ast_parse rt text = inr t → render rt t = inr syntax →
  write_file rt (files w) output_path
    (report (basename file_path) (now w) syntax) = (result, left_files) →
  main rt w file_path output_path
  = match result with
    | None =>
        (Returned,
         {| files := left_files;
            log := log w ++ [ (INFO, "Starting AST analysis...");
                              (INFO, "Generating Mermaid.js syntax...");
                              (INFO, "Writing to Markdown file...");
                              (INFO, "Process completed successfully.") ];
            now := now w |})
    | Some e =>
        (Raised e,
         {| files := left_files;
            log := log w ++ [ (INFO, "Starting AST analysis...");
                              (INFO, "Generating Mermaid.js syntax...");
                              (INFO, "Writing to Markdown file...") ];
            now := now w |})
    end
  ∧ (has_slash file_path = false → basename file_path = file_path)
  ∧ (∀ dir name, file_path = dir +:+ "/" +:+ name →
       has_slash name = false → basename file_path = name).
Proof.
  intros Hf Hpy Hparse Hrender Hwrite. split; [|split].
  - rewrite (main_reaches_write rt w _ output_path text t syntax) by done.
    rewrite Hwrite. by destruct result.
  - intros Hs. unfold basename. by rewrite basename_from_no_slash.
  - intros dir name -> Hs. by apply basename_from_after_slash.
Qed.

Lemma main_writes_report_witness :
  ∃ syntax,
    render runtime_p call_in_loop = inr syntax
    ∧ main runtime_p project_world "src/example.py" "output.md"
      = (Returned,
         {| files :=
              <["output.md" :=
                  File (report "example.py" "2024-01-01 00:00:00 UTC" syntax)]>
                (files project_world);
            log := log project_world ++ progress;
            now := now project_world |}).
Proof.
  destruct (render runtime_p call_in_loop) as [e|syntax] eqn:Hr;
    [vm_compute in Hr; discriminate|].
  exists syntax. split; [reflexivity|].
  destruct (main_writes_report runtime_p project_world "src/example.py"
              "output.md" call_in_loop_text call_in_loop syntax None
              (<["output.md" :=
                   File (report "example.py" "2024-01-01 00:00:00 UTC"
                           syntax)]> (files project_world)))
    as (Hmain & _ & _).
  - reflexivity.
  - reflexivity.
  - reflexivity.
  - exact Hr.
  - reflexivity.
  - exact Hmain.
Defined.

(** X17: the only way [main] changes the files is the one write of the
    report through the output path, made after validation, reading,
    parsing and serialization have all succeeded; in every other case the
    files are as they were.  The log only grows. *)
Theorem main_writes_at_most_once (rt : Runtime) (w : world)
    (file_path output_path : string) :
  (files (main rt w file_path output_path).2 = files w
   ∨ ∃ text t syntax,
       files w !! file_path = Some (File text)
       ∧ endswith file_path ".py" = true
       ∧ ast_parse rt text = inr t ∧ render rt t = inr syntax
       ∧ files (main rt w file_path output_path).2
         = (write_file rt (files w) output_path
              (report (basename file_path) (now w) syntax)).2)
  ∧ ∃ records, log (main rt w file_path output_path).2 = log w ++ records.
Proof.
  split.
  - destruct (main_cases rt w file_path output_path)
      as [Hsame|(text & t & syntax & Hf & Hpy & Hparse & Hrender)];
      [by left|].
    right. exists text, t, syntax. repeat split; try done.
    rewrite (main_reaches_write rt w _ _ text t syntax) by done.
    simpl. by destruct (write_file rt _ _ _) as [[e|] fs].
  - unfold main, write_to_markdown, logging.
    repeat case_match; simplify_eq; simpl; rewrite <- ?app_assoc; eauto.
Qed.

(** X18: when the path passes validation and the file cannot be read as a
    program, [main] raises what the reading or the parsing raised, after
    logging the first progress record only, and leaves the files as they
    were; the exception is [IsADirectoryError] for a directory named like a
    program, the one the system raises for a file it cannot read, or the
    one [ast.parse] raises on the text. *)
Theorem main_parse_failure (rt : Runtime) (w : world)
    (file_path output_path : string) (e : exn) :
  validate_file_path w file_path = VTrue →
  parse_python_file rt w file_path = inl e →
  main rt w file_path output_path
  = (Raised e, logging INFO "Starting AST analysis..." w)
  ∧ ((files w !! file_path = Some Dir ∧ e = IsADirectoryError)
     ∨ files w !! file_path = Some (Unreadable e)
     ∨ ∃ text, files w !! file_path = Some (File text)
               ∧ ast_parse rt text = inl e).
Proof.
  intros Hv Hparse. unfold main. rewrite Hv.
  assert (Hp : parse_python_file rt
                 (logging INFO "Starting AST analysis..." w) file_path
               = inl e) by done.
  rewrite Hp. split; [done|].
  apply validate_VTrue in Hv as [[entry He] _].
  unfold parse_python_file in Hparse. rewrite He in Hparse.
  destruct entry as [text| |e'].
  - right. right. eauto.
  - injection Hparse as <-. by left.
  - injection Hparse as <-. right. by left.
Qed.

Lemma main_parse_failure_witness :
  main runtime_p project_world "pkg.py" "output.md"
  = (Raised IsADirectoryError,
     logging INFO "Starting AST analysis..." project_world)
  ∧ main runtime_p project_world "broken.py" "output.md"
    = (Raised SyntaxError,
       logging INFO "Starting AST analysis..." project_world)
  ∧ main runtime_p project_world "locked.py" "output.md"
    = (Raised PermissionError,
       logging INFO "Starting AST analysis..." project_world).
Proof.
  split; [|split].
  - apply (main_parse_failure runtime_p project_world "pkg.py" "output.md"
             IsADirectoryError); reflexivity.
  - apply (main_parse_failure runtime_p project_world "broken.py" "output.md"
             SyntaxError); reflexivity.
  - apply (main_parse_failure runtime_p project_world "locked.py" "output.md"
             PermissionError); reflexivity.
Defined.

(** X19: when the program holds a call of a listed function with a literal
    argument that is not a string, the whole run is lost: [main] raises
    [TypeError] after the second progress record and writes no report, not
    even the node declarations. *)
Theorem main_unprintable_argument (rt : Runtime) (w : world)
    (file_path output_path text : string) (t : node) :
  files w !! file_path = Some (File text) →
  endswith file_path ".py" = true → ast_parse rt text = inr t →
  printable (function_calls (analyze_ast rt t)) = false →
  ∃ item found,
    main rt w file_path output_path
    = (Raised (TypeError item found),
       logging INFO "Generating Mermaid.js syntax..."
         (logging INFO "Starting AST analysis..." w)).
Proof.
  intros Hf Hpy Hparse Hp.
  destruct (render rt t) as [e|syntax] eqn:Hr.
  - destruct (render_raises_only_TypeError_aux rt t e Hr) as (i & ty & ->).
    exists i, ty. unfold main.
    rewrite (proj2 (validate_VTrue _ _)) by (split; [by rewrite Hf | done]).
    unfold parse_python_file. simpl. rewrite Hf, Hparse.
    unfold render in Hr. by rewrite Hr.
  - apply generate_inr_printable in Hr. congruence.
Qed.

Lemma main_unprintable_argument_witness :
  ∃ item found,
    main runtime_p project_world "src/literal.py" "output.md"
    = (Raised (TypeError item found),
       logging INFO "Generating Mermaid.js syntax..."
         (logging INFO "Starting AST analysis..." project_world)).
Proof.
  apply (main_unprintable_argument runtime_p project_world "src/literal.py"
           "output.md" literal_argument_text literal_argument); reflexivity.
Defined.
